(** * Verification of the spin-button controller and the locale number parser

    Two React hooks are embedded here:

    - [useSpinButton] (keyboard dispatch, focus and blur, the live
      announcement effect, and the press-and-hold repeat timers);
    - [useNumberParser] (the locale descriptor built in an effect, and
      [parse]).

    Event handlers are written in a small state-and-exception monad; host
    callbacks are opaque, so a call to one is recorded in a log. *)

From Stdlib Require Import List String Ascii Bool Arith ZArith NArith Lia.
From Stdlib Require Import DecimalString.
Import ListNotations.

Set Implicit Arguments.

(** ** Handlers: state passing with exceptions *)

(** What a JavaScript handler can raise here.  [TypeError] is what calling
    [undefined] or reading a property of [undefined] raises.  [Unmodelled]
    marks a regular expression source outside the fragment interpreted
    below. *)
Inductive error : Type := TypeError | Unmodelled.

Inductive completion (A : Type) : Type :=
| Returned (a : A)
| Threw (e : error).
Arguments Returned {A} a.
Arguments Threw {A} e.

Definition M (S A : Type) : Type := S -> completion A * S.

Definition ret {S A : Type} (a : A) : M S A := fun s => (Returned a, s).

Definition bind {S A B : Type} (c : M S A) (k : A -> M S B) : M S B :=
  fun s =>
    match c s with
    | (Returned a, s') => k a s'
    | (Threw e, s') => (Threw e, s')
    end.

Definition throw {S A : Type} (e : error) : M S A := fun s => (Threw e, s).

Definition modify {S : Type} (f : S -> S) : M S unit :=
  fun s => (Returned tt, f s).

Definition gets {S A : Type} (f : S -> A) : M S A :=
  fun s => (Returned (f s), s).

Declare Scope handler_scope.
Delimit Scope handler_scope with handler.
Notation "x <- c ;; k" := (bind c (fun x => k))
  (at level 61, c at next level, right associativity) : handler_scope.
Notation "c ;; k" := (bind c (fun _ => k))
  (at level 61, right associativity) : handler_scope.
Local Open Scope handler_scope.

(** ** useSpinButton *)

Module SpinButton.

(** The optional host callbacks of [SpinButtonProps]. *)
Inductive callback : Type :=
| OnValidate
| OnIncrement
| OnIncrementPage
| OnDecrement
| OnDecrementPage
| OnDecrementToMin
| OnIncrementToMax.

(** Everything a handler does to the outside: [e.preventDefault()], a call
    of a host callback, [announce(text)], [inputRef.current.select()], and
    an exception that escapes a handler run by the event loop. *)
Inductive effect : Type :=
| PreventDefault
| Call (c : callback)
| Announce (text : string)
| Select
| Uncaught (e : error).

(** [value] is a JavaScript value ([string | number], possibly
    [undefined]).  The hook only compares it with [Object.is] (the
    dependency list of the effect) and interpolates it in a template
    literal. *)
Class JSValue (V : Type) : Type := {
  Object_is : V -> V -> bool;
  ToString : V -> string;
  Object_is_refl : forall a, Object_is a a = true;
  Object_is_ToString : forall a b, Object_is a b = true -> ToString a = ToString b
}.

(** A callback field is [true] when the host supplied the function and
    [false] when it is [undefined]; a bound is [None] when absent. *)
Record SpinButtonProps (V : Type) : Type := {
  value : V;
  textValue : option string;
  minValue : option Z;
  maxValue : option Z;
  isDisabled : bool;
  isReadOnly : bool;
  isRequired : bool;
  onIncrement : bool;
  onIncrementPage : bool;
  onDecrement : bool;
  onDecrementPage : bool;
  onDecrementToMin : bool;
  onIncrementToMax : bool;
  onValidate : bool
}.

Record KeyboardEvent : Type := {
  key : string;
  ctrlKey : bool;
  metaKey : bool;
  shiftKey : bool;
  altKey : bool
}.

Inductive direction : Type := Increment | Decrement.

(** A pending [setTimeout].  Its callback is [() => onIncrementPressStart(60)]
    or [() => onDecrementPressStart(75)], closed over the props of the render
    that created it. *)
Record timer (V : Type) : Type := {
  handle : nat;
  due : nat;
  spin : direction;
  closure : SpinButtonProps V
}.

(** The state of one mounted hook instance and of the timer queue it uses.
    [_async] and [isFocused] are the two refs; [deps] is the dependency
    list React remembers for the announcement effect. *)
Record world (V : Type) : Type := {
  now : nat;
  next_handle : nat;
  timers : list (timer V);
  _async : option nat;
  isFocused : bool;
  deps : option (option string * V);
  props : SpinButtonProps V;
  log : list effect
}.

Section Hook.
Context {V : Type} `{JSValue V}.

Abbreviation handler := (M (world V) unit).

Definition emit (x : effect) : handler :=
  modify (fun w =>
    {| now := now w; next_handle := next_handle w; timers := timers w;
       _async := _async w; isFocused := isFocused w; deps := deps w;
       props := props w; log := log w ++ [x] |}).

(** Calling an optional callback: [undefined()] raises a TypeError. *)
Definition call (present : bool) (c : callback) : handler :=
  if present then emit (Call c) else throw TypeError.

Definition anyModifier (e : KeyboardEvent) : bool :=
  ctrlKey e || metaKey e || shiftKey e || altKey e.

(** The [switch] of [onKeyDown], with its two fall-throughs written out. *)
Definition onKeyDown (p : SpinButtonProps V) (e : KeyboardEvent) : handler :=
  if anyModifier e || isReadOnly p then ret tt
  else
    let arrowUp :=
      if onIncrement p then emit PreventDefault ;; call (onIncrement p) OnIncrement
      else ret tt in
    let arrowDown :=
      if onDecrement p then emit PreventDefault ;; call (onDecrement p) OnDecrement
      else ret tt in
    if (key e =? "Enter")%string then
      emit PreventDefault ;; call (onValidate p) OnValidate
    else if (key e =? "PageUp")%string then
      if onIncrementPage p then emit PreventDefault ;; call (onIncrementPage p) OnIncrementPage
      else arrowUp
    else if ((key e =? "ArrowUp") || (key e =? "Up"))%string then arrowUp
    else if (key e =? "PageDown")%string then
      if onDecrementPage p then emit PreventDefault ;; call (onDecrementPage p) OnDecrementPage
      else arrowDown
    else if ((key e =? "ArrowDown") || (key e =? "Down"))%string then arrowDown
    else if (key e =? "Home")%string then
      match minValue p with
      | Some _ =>
          if onDecrementToMin p
          then emit PreventDefault ;; call (onDecrementToMin p) OnDecrementToMin
          else ret tt
      | None => ret tt
      end
    else if (key e =? "End")%string then
      match maxValue p with
      | Some _ =>
          if onIncrementToMax p
          then emit PreventDefault ;; call (onIncrementToMax p) OnIncrementToMax
          else ret tt
      | None => ret tt
      end
    else ret tt.

Definition set_isFocused (b : bool) : handler :=
  modify (fun w =>
    {| now := now w; next_handle := next_handle w; timers := timers w;
       _async := _async w; isFocused := b; deps := deps w;
       props := props w; log := log w |}).

(** [inputRef] is an optional argument of the hook; [hasInput] tells whether
    [inputRef.current] is an element. *)
Definition onFocus (hasInput : bool) : handler :=
  set_isFocused true ;;
  if hasInput then emit Select else throw TypeError.

Definition onBlur (p : SpinButtonProps V) : handler :=
  set_isFocused false ;;
  call (onValidate p) OnValidate.

(** [textValue || `${value}`]: an empty string is falsy. *)
Definition displayed (textValue : option string) (value : V) : string :=
  match textValue with
  | Some s => if (s =? EmptyString)%string then ToString value else s
  | None => ToString value
  end.

Definition same_text (a b : option string) : bool :=
  match a, b with
  | Some x, Some y => (x =? y)%string
  | None, None => true
  | _, _ => false
  end.

(** React runs an effect after the first commit and after every commit in
    which some dependency differs (by [Object.is]) from the previous one. *)
Definition deps_changed (old : option (option string * V))
    (new : option string * V) : bool :=
  match old with
  | None => true
  | Some (t, v) => negb (same_text t (fst new) && Object_is v (snd new))
  end.

Definition announce_effect (p : SpinButtonProps V) : handler :=
  focused <- gets (@isFocused V) ;;
  if focused then emit (Announce (displayed (textValue p) (value p))) else ret tt.

Definition commit (p : SpinButtonProps V) : handler :=
  modify (fun w =>
    {| now := now w; next_handle := next_handle w; timers := timers w;
       _async := _async w; isFocused := isFocused w;
       deps := Some (textValue p, value p);
       props := p; log := log w |}).

(** One render of the hook with props [p], followed by its effects. *)
Definition render (p : SpinButtonProps V) : handler :=
  old <- gets (@deps V) ;;
  commit p ;;
  if deps_changed old (textValue p, value p) then announce_effect p else ret tt.

(** [setTimeout(callback, delay)] returns a fresh, truthy handle. *)
Definition setTimeout (d : direction) (p : SpinButtonProps V) (delay : nat)
  : M (world V) nat :=
  fun w =>
    (Returned (next_handle w),
     {| now := now w; next_handle := S (next_handle w);
        timers := timers w ++
          [{| handle := next_handle w; due := now w + delay;
              spin := d; closure := p |}];
        _async := _async w; isFocused := isFocused w; deps := deps w;
        props := props w; log := log w |}).

Definition clearTimeout (h : nat) : handler :=
  modify (fun w =>
    {| now := now w; next_handle := next_handle w;
       timers := filter (fun t => negb (handle t =? h)) (timers w);
       _async := _async w; isFocused := isFocused w; deps := deps w;
       props := props w; log := log w |}).

Definition set_async (h : nat) : handler :=
  modify (fun w =>
    {| now := now w; next_handle := next_handle w; timers := timers w;
       _async := Some h; isFocused := isFocused w; deps := deps w;
       props := props w; log := log w |}).

Definition onIncrementPressStart (p : SpinButtonProps V)
    (initialStepDelay : nat) : handler :=
  call (onIncrement p) OnIncrement ;;
  h <- setTimeout Increment p initialStepDelay ;;
  set_async h.

(** [if (_async.current) clearTimeout(_async.current)]; the ref itself is
    left as it is. *)
Definition onIncrementPressEnd : handler :=
  a <- gets (@_async V) ;;
  match a with
  | Some h => clearTimeout h
  | None => ret tt
  end.

Definition onDecrementPressStart (p : SpinButtonProps V)
    (initialStepDelay : nat) : handler :=
  call (onDecrement p) OnDecrement ;;
  h <- setTimeout Decrement p initialStepDelay ;;
  set_async h.

Definition onDecrementPressEnd : handler :=
  a <- gets (@_async V) ;;
  match a with
  | Some h => clearTimeout h
  | None => ret tt
  end.

(** [incrementButtonProps] and [decrementButtonProps]. *)
Definition onPressStart (d : direction) (p : SpinButtonProps V) : handler :=
  match d with
  | Increment => onIncrementPressStart p 400
  | Decrement => onDecrementPressStart p 400
  end.

Definition onPressEnd (d : direction) : handler :=
  match d with
  | Increment => onIncrementPressEnd
  | Decrement => onDecrementPressEnd
  end.

(** *** The event loop *)

(** A handler invoked by the event loop: an exception that escapes it is
    reported and the state it left behind stays. *)
Definition dispatch (h : handler) (w : world V) : world V :=
  match h w with
  | (Returned _, w') => w'
  | (Threw e, w') => snd (emit (Uncaught e) w')
  end.

Definition remove_timer (h : nat) (w : world V) : world V :=
  snd (clearTimeout h w).

(** The body of a timer's callback. *)
Definition timer_callback (t : timer V) : handler :=
  match spin t with
  | Increment => onIncrementPressStart (closure t) 60
  | Decrement => onDecrementPressStart (closure t) 75
  end.

Definition is_pending (h : nat) (w : world V) : bool :=
  existsb (fun t => handle t =? h) (timers w).

(** A timer that is due and has not been cleared leaves the queue and runs
    its callback. *)
Definition fire (t : timer V) (w : world V) : world V :=
  if is_pending (handle t) w
  then dispatch (timer_callback t) (remove_timer (handle t) w)
  else w.

Definition advance_clock (w : world V) : world V :=
  {| now := S (now w); next_handle := next_handle w; timers := timers w;
     _async := _async w; isFocused := isFocused w; deps := deps w;
     props := props w; log := log w |}.

(** One millisecond passes: the timers that are due fire in the order in
    which they were armed. *)
Definition tick (w : world V) : world V :=
  let w1 := advance_clock w in
  fold_left (fun acc t => fire t acc)
            (filter (fun t => due t <=? now w1) (timers w1)) w1.

Fixpoint elapse (ms : nat) (w : world V) : world V :=
  match ms with
  | O => w
  | S n => elapse n (tick w)
  end.

Inductive event : Type :=
| KeyDown (e : KeyboardEvent)
| Focus (hasInput : bool)
| Blur
| Render (p : SpinButtonProps V)
| PressStart (d : direction)
| PressEnd (d : direction)
| Elapse (ms : nat)
| Unmount.

(** Unmounting runs the cleanup functions of the hook's effects.  The only
    effect of the hook returns none, and no other code runs on unmount. *)
Definition unmount (w : world V) : world V := w.

Definition step (w : world V) (ev : event) : world V :=
  match ev with
  | KeyDown e => dispatch (onKeyDown (props w) e) w
  | Focus i => dispatch (onFocus i) w
  | Blur => dispatch (onBlur (props w)) w
  | Render p => dispatch (render p) w
  | PressStart d => dispatch (onPressStart d (props w)) w
  | PressEnd d => dispatch (onPressEnd d) w
  | Elapse ms => elapse ms w
  | Unmount => unmount w
  end.

Definition run (w : world V) (tr : list event) : world V :=
  fold_left step tr w.

(** The first render and its effects. *)
Definition mount (p : SpinButtonProps V) : world V :=
  dispatch (render p)
    {| now := 0; next_handle := 1; timers := []; _async := None;
       isFocused := false; deps := None; props := p; log := [] |}.

Definition calls (c : callback) (w : world V) : nat :=
  List.length (filter (fun x => match x with
                                | Call c' =>
                                    match c, c' with
                                    | OnValidate, OnValidate
                                    | OnIncrement, OnIncrement
                                    | OnIncrementPage, OnIncrementPage
                                    | OnDecrement, OnDecrement
                                    | OnDecrementPage, OnDecrementPage
                                    | OnDecrementToMin, OnDecrementToMin
                                    | OnIncrementToMax, OnIncrementToMax => true
                                    | _, _ => false
                                    end
                                | _ => false
                                end) (log w)).

Definition live (d : direction) (w : world V) : list (timer V) :=
  filter (fun t => match spin t, d with
                   | Increment, Increment | Decrement, Decrement => true
                   | _, _ => false
                   end) (timers w).

(** *** Vocabulary for the statements below *)

Definition logged (l : list effect) (w : world V) : world V :=
  {| now := now w; next_handle := next_handle w; timers := timers w;
     _async := _async w; isFocused := isFocused w; deps := deps w;
     props := props w; log := log w ++ l |}.

Definition at_time (t : nat) (w : world V) : world V :=
  {| now := t; next_handle := next_handle w; timers := timers w;
     _async := _async w; isFocused := isFocused w; deps := deps w;
     props := props w; log := log w |}.

Definition step_callback (d : direction) : callback :=
  match d with
  | Increment => OnIncrement
  | Decrement => OnDecrement
  end.

Definition step_present (d : direction) (p : SpinButtonProps V) : bool :=
  match d with
  | Increment => onIncrement p
  | Decrement => onDecrement p
  end.

(** The world after one call of the step callback of [d] followed by
    [_async.current = setTimeout(..., delay)]. *)
Definition armed (d : direction) (p : SpinButtonProps V) (delay : nat)
    (w : world V) : world V :=
  {| now := now w; next_handle := S (next_handle w);
     timers := timers w ++
       [{| handle := next_handle w; due := now w + delay;
           spin := d; closure := p |}];
     _async := Some (next_handle w); isFocused := isFocused w;
     deps := deps w; props := props w;
     log := log w ++ [Call (step_callback d)] |}.

Definition pressStart (d : direction) (p : SpinButtonProps V) (delay : nat)
  : handler :=
  match d with
  | Increment => onIncrementPressStart p delay
  | Decrement => onDecrementPressStart p delay
  end.

Definition repeat_interval (d : direction) : nat :=
  match d with
  | Increment => 60
  | Decrement => 75
  end.

(** At most one timer is pending; it is the one [_async] refers to and it
    repeats the direction of the press being held. *)
Definition tracked (held : option direction) (w : world V) : Prop :=
  timers w = [] \/
  exists t, timers w = [t] /\ _async w = Some (handle t) /\ held = Some (spin t).

Definition with_isDisabled (b : bool) (p : SpinButtonProps V)
  : SpinButtonProps V :=
  {| value := value p; textValue := textValue p; minValue := minValue p;
     maxValue := maxValue p; isDisabled := b; isReadOnly := isReadOnly p;
     isRequired := isRequired p; onIncrement := onIncrement p;
     onIncrementPage := onIncrementPage p; onDecrement := onDecrement p;
     onDecrementPage := onDecrementPage p;
     onDecrementToMin := onDecrementToMin p;
     onIncrementToMax := onIncrementToMax p; onValidate := onValidate p |}.

Definition announcements (w : world V) : list effect :=
  filter (fun x => match x with Announce _ => true | _ => false end) (log w).

(** After the event [ev], the passage of time runs no deferred callback. *)
Definition cancels (ev : event) (w : world V) : Prop :=
  forall ms, log (elapse ms (step w ev)) = log (step w ev).

(** Traces in which a press starts only when no press is held: the
    direction held at the end of such a trace, and [None] for another
    trace. *)
Fixpoint held_after (held : option direction) (tr : list event)
  : option (option direction) :=
  match tr with
  | [] => Some held
  | PressStart d :: r =>
      match held with
      | None => held_after (Some d) r
      | Some _ => None
      end
  | PressEnd _ :: r => held_after None r
  | _ :: r => held_after held r
  end.

(** The trace without the presses and releases of the direction [d]. *)
Definition without (d : direction) (tr : list event) : list event :=
  filter (fun ev =>
            match ev, d with
            | PressStart Increment, Increment | PressEnd Increment, Increment
            | PressStart Decrement, Decrement | PressEnd Decrement, Decrement =>
                false
            | _, _ => true
            end) tr.

(** *** Vocabulary for the further properties *)

(** Whether the host supplied the callback. *)
Definition supplied (p : SpinButtonProps V) (c : callback) : bool :=
  match c with
  | OnValidate => onValidate p
  | OnIncrement => onIncrement p
  | OnIncrementPage => onIncrementPage p
  | OnDecrement => onDecrement p
  | OnDecrementPage => onDecrementPage p
  | OnDecrementToMin => onDecrementToMin p
  | OnIncrementToMax => onIncrementToMax p
  end.

(** The keys the [switch] of [onKeyDown] has a case for. *)
Definition dispatched_keys : list string :=
  ["Enter"; "PageUp"; "ArrowUp"; "Up"; "PageDown"; "ArrowDown"; "Down";
   "Home"; "End"]%string.


(** Whether the control has focus at the end of a trace: its last focus or
    blur event decides, and [b] when it has none. *)
Fixpoint focused_after (b : bool) (tr : list event) : bool :=
  match tr with
  | [] => b
  | Focus _ :: r => focused_after true r
  | Blur :: r => focused_after false r
  | _ :: r => focused_after b r
  end.

(** The props of the last render of a trace, and [p] when it has none. *)
Fixpoint rendered_after (p : SpinButtonProps V) (tr : list event)
  : SpinButtonProps V :=
  match tr with
  | [] => p
  | Render q :: r => rendered_after q r
  | _ :: r => rendered_after p r
  end.

(** Every pending timer has a handle older than the next one to be given
    out, and a callback closed over props that supply its step callback. *)
Definition healthy (w : world V) : Prop :=
  forall t, In t (timers w) ->
            handle t < next_handle w
            /\ step_present (spin t) (closure t) = true.

(** A call of one of the two step callbacks. *)
Definition step_call (x : effect) : bool :=
  match x with
  | Call OnIncrement | Call OnDecrement => true
  | _ => false
  end.

(** The clock, the timer queue and the handle slot. *)
Definition timer_state (w : world V) : nat * nat * list (timer V) * option nat :=
  (now w, next_handle w, timers w, _async w).

(** One timer is pending: it repeats [d] with the props [p] and is due at
    [D]. *)
Definition holding (d : direction) (p : SpinButtonProps V) (D : nat)
    (w : world V) : Prop :=
  exists t, timers w = [t] /\ spin t = d /\ closure t = p /\ due t = D.

(** The focus flag, the remembered dependencies and the announcements of
    [w'] are those of [w]. *)
Definition quiet (w w' : world V) : Prop :=
  isFocused w' = isFocused w /\ deps w' = deps w
  /\ announcements w' = announcements w.

(** The attributes of the returned [spinButtonProps]; [None] is [null] or
    [undefined].  [isNumber] is the test [typeof value === 'number']. *)
Record SpinButtonAttributes : Type := {
  role : string;
  aria_valuenow : option V;
  aria_valuetext : option string;
  aria_valuemin : option Z;
  aria_valuemax : option Z;
  aria_disabled : option bool;
  aria_readonly : option bool;
  aria_required : option bool
}.

(** [flag || null] *)
Definition or_null (b : bool) : option bool := if b then Some true else None.

Definition spinButtonProps (isNumber : V -> bool) (p : SpinButtonProps V)
  : SpinButtonAttributes :=
  {| role := "spinbutton";
     aria_valuenow := if isNumber (value p) then Some (value p) else None;
     aria_valuetext :=
       match textValue p with
       | Some s => if (s =? EmptyString)%string then None else Some s
       | None => None
       end;
     aria_valuemin := minValue p;
     aria_valuemax := maxValue p;
     aria_disabled := or_null (isDisabled p);
     aria_readonly := or_null (isReadOnly p);
     aria_required := or_null (isRequired p) |}.
End Hook.

(** *** Integer values, and sample props *)

Lemma Zeqb_ToString (a b : Z) :
  Z.eqb a b = true ->
  NilZero.string_of_int (Z.to_int a) = NilZero.string_of_int (Z.to_int b).
Proof. intros E. apply Z.eqb_eq in E. now subst. Qed.

#[export] Instance JSValue_Z : JSValue Z :=
  {| Object_is := Z.eqb;
     ToString := fun z => NilZero.string_of_int (Z.to_int z);
     Object_is_refl := Z.eqb_refl;
     Object_is_ToString := Zeqb_ToString |}.

(** A host that supplies every callback. *)
Definition full : SpinButtonProps Z :=
  {| value := 5%Z; textValue := None; minValue := Some 0%Z;
     maxValue := Some 10%Z; isDisabled := false; isReadOnly := false;
     isRequired := false; onIncrement := true; onIncrementPage := true;
     onDecrement := true; onDecrementPage := true; onDecrementToMin := true;
     onIncrementToMax := true; onValidate := true |}.

(** The same host after the value went from 5 to 6. *)
Definition six : SpinButtonProps Z :=
  {| value := 6%Z; textValue := None; minValue := Some 0%Z;
     maxValue := Some 10%Z; isDisabled := false; isReadOnly := false;
     isRequired := false; onIncrement := true; onIncrementPage := true;
     onDecrement := true; onDecrementPage := true; onDecrementToMin := true;
     onIncrementToMax := true; onValidate := true |}.

(** The same host showing the value 6 under the override text "six". *)
Definition six_as_text : SpinButtonProps Z :=
  {| value := 6%Z; textValue := Some "six"%string; minValue := Some 0%Z;
     maxValue := Some 10%Z; isDisabled := false; isReadOnly := false;
     isRequired := false; onIncrement := true; onIncrementPage := true;
     onDecrement := true; onDecrementPage := true; onDecrementToMin := true;
     onIncrementToMax := true; onValidate := true |}.

(** A host that supplies the two step callbacks only. *)
Definition steps_only : SpinButtonProps Z :=
  {| value := 5%Z; textValue := None; minValue := None; maxValue := None;
     isDisabled := false; isReadOnly := false; isRequired := false;
     onIncrement := true; onIncrementPage := false; onDecrement := true;
     onDecrementPage := false; onDecrementToMin := false;
     onIncrementToMax := false; onValidate := false |}.

Definition plain_key (k : string) : KeyboardEvent :=
  {| key := k; ctrlKey := false; metaKey := false; shiftKey := false;
     altKey := false |}.

Definition ctrl_key (k : string) : KeyboardEvent :=
  {| key := k; ctrlKey := true; metaKey := false; shiftKey := false;
     altKey := false |}.

(** A host that supplies no callback at all. *)
Definition bare : SpinButtonProps Z :=
  {| value := 5%Z; textValue := Some "five"%string; minValue := None;
     maxValue := None; isDisabled := false; isReadOnly := false;
     isRequired := false; onIncrement := false; onIncrementPage := false;
     onDecrement := false; onDecrementPage := false; onDecrementToMin := false;
     onIncrementToMax := false; onValidate := false |}.

End SpinButton.

(** ** useNumberParser *)

Module NumberParser.

(** A JavaScript string is a sequence of UTF-16 code units. *)
Definition jsstring : Type := list N.

Definition units (s : string) : jsstring :=
  map N_of_ascii (list_ascii_of_string s).

Fixpoint jsstring_eqb (a b : jsstring) : bool :=
  match a, b with
  | [], [] => true
  | x :: a', y :: b' => (x =? y)%N && jsstring_eqb a' b'
  | _, _ => false
  end.

(** [WhiteSpace] and [LineTerminator] code units: what [trim] removes and
    what a string numeric literal may be padded with. *)
Definition isWhiteSpace (c : N) : bool :=
  ((9 <=? c) && (c <=? 13) || (c =? 32) || (c =? 160) || (c =? 5760)
   || (8192 <=? c) && (c <=? 8202) || (c =? 8232) || (c =? 8233)
   || (c =? 8239) || (c =? 8287) || (c =? 12288) || (c =? 65279))%N.

Fixpoint trimStart (s : jsstring) : jsstring :=
  match s with
  | c :: r => if isWhiteSpace c then trimStart r else s
  | [] => []
  end.

Definition trimEnd (s : jsstring) : jsstring := rev (trimStart (rev s)).

Definition trim (s : jsstring) : jsstring := trimEnd (trimStart s).

Definition isHighSurrogate (c : N) : bool := ((55296 <=? c) && (c <=? 56319))%N.
Definition isLowSurrogate (c : N) : bool := ((56320 <=? c) && (c <=? 57343))%N.

(** [[...s]]: the string iterator yields code points, so a surrogate pair
    comes out as one two-unit string. *)
Fixpoint spread (s : jsstring) : list jsstring :=
  match s with
  | [] => []
  | c :: r =>
      match r with
      | c' :: r' =>
          if isHighSurrogate c && isLowSurrogate c'
          then [c; c'] :: spread r'
          else [c] :: spread r
      | [] => [[c]]
      end
  end.

(** *** The platform: Intl.NumberFormat *)

Record part : Type := { type : string; value : jsstring }.

(** What the platform answers for one locale: the parts of [12345.6], and
    [9876543210] formatted with grouping off. *)
Record NumberFormat : Type := {
  formatToParts_12345_6 : list part;
  format_9876543210 : jsstring
}.

Definition Intl : Type := string -> NumberFormat.

(** *** Numbers *)

(** A Number is [NaN], an infinity, or a finite double.  Every finite
    double is a decimal, and is written here as (-1)^negative * mantissa *
    10^exponent; [Number_value] below gives the double a decimal is rounded
    to. *)
Inductive number : Type :=
| NaN
| Infinity (negative : bool)
| Finite (negative : bool) (mantissa : N) (exponent : Z).

(** Numeric equality ([==] on numbers): NaN equals nothing, zero has no
    sign. *)
Definition same_number (a b : number) : bool :=
  match a, b with
  | Infinity x, Infinity y => Bool.eqb x y
  | Finite n1 m1 e1, Finite n2 m2 e2 =>
      let e := Z.min e1 e2 in
      let v1 := (Z.of_N m1 * 10 ^ (e1 - e))%Z in
      let v2 := (Z.of_N m2 * 10 ^ (e2 - e))%Z in
      ((if n1 then - v1 else v1) =? (if n2 then - v2 else v2))%Z
  | _, _ => false
  end.

(** [num / den] rounded to the nearest integer, a tie going to the even
    one. *)
Definition round_half_even (num den : Z) : Z :=
  let q := (num / den)%Z in
  let r := (2 * (num mod den))%Z in
  if (r <? den)%Z then q
  else if (den <? r)%Z then (q + 1)%Z
  else if Z.even q then q else (q + 1)%Z.

(** The integer part of the binary logarithm of [num / den], both
    positive. *)
Definition floor_log2 (num den : Z) : Z :=
  let l := (Z.log2 num - Z.log2 den)%Z in
  if (den * 2 ^ Z.max l 0 <=? num * 2 ^ Z.max (- l) 0)%Z then l else (l - 1)%Z.

(** [q * 2^E] as a decimal: with [k] binary places after the point, of
    which [k'] are left once the factors of two of [q] are cancelled, it is
    an integer times 10^(-k'). *)
Definition dyadic (negative : bool) (q E : Z) : number :=
  let k := Z.max (- E) 0 in
  let g := Z.gcd q (2 ^ k) in
  let k' := (k - Z.log2 g)%Z in
  Finite negative (Z.to_N (q / g * 2 ^ Z.max E 0 * 5 ^ k')) (- k').

(** The Number value for (-1)^negative * mantissa * 10^exponent: the
    nearest double (53 significant bits, binary exponent of the last bit
    between -1074 and 971), a tie going to the even significand, and an
    infinity when 2^1024 is the nearest.  A literal of more than twenty
    significant digits, where the language lets an engine round at the
    twentieth digit first, is rounded as it is written. *)
Definition Number_value (negative : bool) (mantissa : N) (exponent : Z)
  : number :=
  if (mantissa =? 0)%N then Finite negative 0 0
  else
    let num := (Z.of_N mantissa * 10 ^ Z.max exponent 0)%Z in
    let den := (10 ^ Z.max (- exponent) 0)%Z in
    let E := Z.max (floor_log2 num den - 52) (-1074) in
    let q := round_half_even (num * 2 ^ Z.max (- E) 0) (den * 2 ^ Z.max E 0) in
    if (2 ^ 1024 <=? q * 2 ^ Z.max E 0)%Z then Infinity negative
    else dyadic negative q E.

(** [Number.MAX_SAFE_INTEGER], 2^53 - 1. *)
Definition MAX_SAFE_INTEGER : N := 9007199254740991.

Definition to_N (base : N) (ds : list N) : N :=
  fold_left (fun a d => a * base + d)%N ds 0%N.

Definition digit_value (base : N) (c : N) : option N :=
  let v :=
    if ((48 <=? c) && (c <=? 57))%N then Some (c - 48)%N
    else if ((97 <=? c) && (c <=? 102))%N then Some (c - 87)%N
    else if ((65 <=? c) && (c <=? 70))%N then Some (c - 55)%N
    else None in
  match v with
  | Some d => if (d <? base)%N then Some d else None
  | None => None
  end.

(** The longest prefix of digits of the base, and what follows it. *)
Fixpoint digits (base : N) (s : jsstring) : list N * jsstring :=
  match s with
  | c :: r =>
      match digit_value base c with
      | Some d => let (ds, r') := digits base r in (d :: ds, r')
      | None => ([], s)
      end
  | [] => ([], [])
  end.

Definition sign (s : jsstring) : bool * jsstring :=
  match s with
  | 43%N :: r => (false, r)
  | 45%N :: r => (true, r)
  | _ => (false, s)
  end.

(** [ExponentPart], optional, up to the end of the string. *)
Definition ExponentPart (s : jsstring) : option Z :=
  match s with
  | [] => Some 0%Z
  | c :: r =>
      if ((c =? 101) || (c =? 69))%N then
        let (neg, r1) := sign r in
        match digits 10 r1 with
        | (d :: ds, []) =>
            let e := Z.of_N (to_N 10 (d :: ds)) in
            Some (if neg then (- e)%Z else e)
        | _ => None
        end
      else None
  end.

Definition StrUnsignedDecimalLiteral (neg : bool) (s : jsstring) : number :=
  if jsstring_eqb s (units "Infinity") then Infinity neg
  else
    let (ip, r1) := digits 10 s in
    match r1 with
    | 46%N :: r2 =>
        let (fp, r3) := digits 10 r2 in
        match ip ++ fp with
        | [] => NaN
        | ds =>
            match ExponentPart r3 with
            | Some e =>
                Number_value neg (to_N 10 ds) (e - Z.of_nat (List.length fp))
            | None => NaN
            end
        end
    | _ =>
        match ip with
        | [] => NaN
        | _ =>
            match ExponentPart r1 with
            | Some e => Number_value neg (to_N 10 ip) e
            | None => NaN
            end
        end
    end.

(** [0x], [0o] and [0b] literals (no sign). *)
Definition NonDecimalIntegerLiteral (s : jsstring) : option N :=
  match s with
  | 48%N :: c :: r =>
      let base :=
        if ((c =? 120) || (c =? 88))%N then Some 16%N
        else if ((c =? 111) || (c =? 79))%N then Some 8%N
        else if ((c =? 98) || (c =? 66))%N then Some 2%N
        else None in
      match base with
      | Some b =>
          match digits b r with
          | (d :: ds, []) => Some (to_N b (d :: ds))
          | _ => None
          end
      | None => None
      end
  | _ => None
  end.

(** [+value] on a string: StringToNumber, which rounds the mathematical
    value of the literal to a double. *)
Definition ToNumber (s : jsstring) : number :=
  match trim s with
  | [] => Finite false 0 0
  | t =>
      match NonDecimalIntegerLiteral t with
      | Some n => Number_value false n 0
      | None => let (neg, r) := sign t in StrUnsignedDecimalLiteral neg r
      end
  end.

(** [String(i)] for an index of the numeral array. *)
Fixpoint uint_units (u : Decimal.uint) : jsstring :=
  match u with
  | Decimal.Nil => []
  | Decimal.D0 r => 48%N :: uint_units r
  | Decimal.D1 r => 49%N :: uint_units r
  | Decimal.D2 r => 50%N :: uint_units r
  | Decimal.D3 r => 51%N :: uint_units r
  | Decimal.D4 r => 52%N :: uint_units r
  | Decimal.D5 r => 53%N :: uint_units r
  | Decimal.D6 r => 54%N :: uint_units r
  | Decimal.D7 r => 55%N :: uint_units r
  | Decimal.D8 r => 56%N :: uint_units r
  | Decimal.D9 r => 57%N :: uint_units r
  end.

Definition String_of_index (i : nat) : jsstring := uint_units (Nat.to_uint i).

(** *** Map *)

Definition Map : Type := list (jsstring * nat).

Fixpoint Map_set (m : Map) (k : jsstring) (v : nat) : Map :=
  match m with
  | [] => [(k, v)]
  | (k', v') :: m' =>
      if jsstring_eqb k' k then (k', v) :: m' else (k', v') :: Map_set m' k v
  end.

Fixpoint Map_get (m : Map) (k : jsstring) : option nat :=
  match m with
  | [] => None
  | (k', v') :: m' => if jsstring_eqb k' k then Some v' else Map_get m' k
  end.

(** [new Map(entries)]: the entries are set one after the other. *)
Definition Map_new (entries : list (jsstring * nat)) : Map :=
  fold_left (fun m kv => Map_set m (fst kv) (snd kv)) entries [].

(** [numerals.map((d, i) => [d, i])]. *)
Fixpoint entries_from (i : nat) (l : list jsstring) : list (jsstring * nat) :=
  match l with
  | [] => []
  | d :: r => (d, i) :: entries_from (S i) r
  end.

(** *** RegExp and String.prototype.replace *)

(** The three expressions are all of the form [new RegExp(`[${x}]`, flags)]
    without the [u] flag: a class of code units.  [class] is [x]. *)
Record RegExp : Type := { class : jsstring; global : bool }.

Fixpoint has_inner_hyphen (s : jsstring) : bool :=
  match s with
  | [] | [_] => false
  | c :: r => (c =? 45)%N || has_inner_hyphen r
  end.

(** [x] is read as a plain list of class members unless it contains a
    backslash or a closing bracket, starts with a caret, or has a hyphen
    between two members. *)
Definition plain_class (x : jsstring) : bool :=
  negb (existsb (fun c => (c =? 92) || (c =? 93))%N x)
  && match x with
     | 94%N :: _ => false
     | _ :: r => negb (has_inner_hyphen r)
     | [] => true
     end.

Definition matches (re : RegExp) (c : N) : bool :=
  existsb (fun m => (m =? c)%N) (class re).

(** The second argument of [replace]: a string, a function (here always
    [d => index.get(d)], given by the Map), or [null]. *)
Inductive replacement : Type :=
| RString (s : jsstring)
| RFunction (index : Map)
| RNull.

Definition replace_with (r : replacement) (matched : jsstring) : jsstring :=
  match r with
  | RString s => s
  | RFunction index =>
      match Map_get index matched with
      | Some i => String_of_index i
      | None => units "undefined"
      end
  | RNull => units "null"
  end.

Fixpoint replace_all (re : RegExp) (r : replacement) (s : jsstring) : jsstring :=
  match s with
  | [] => []
  | c :: rest =>
      (if matches re c then replace_with r [c] else [c]) ++ replace_all re r rest
  end.

Fixpoint replace_first (re : RegExp) (r : replacement) (s : jsstring) : jsstring :=
  match s with
  | [] => []
  | c :: rest =>
      if matches re c then replace_with r [c] ++ rest
      else c :: replace_first re r rest
  end.

Fixpoint starts_with (pre s : jsstring) : option jsstring :=
  match pre, s with
  | [], _ => Some s
  | x :: pre', y :: s' => if (x =? y)%N then starts_with pre' s' else None
  | _ :: _, [] => None
  end.

(** A string pattern replaces its first occurrence. *)
Fixpoint replace_substring (pat : jsstring) (r : replacement) (s : jsstring)
  : jsstring :=
  match starts_with pat s with
  | Some rest => replace_with r pat ++ rest
  | None =>
      match s with
      | [] => []
      | c :: s' => c :: replace_substring pat r s'
      end
  end.

(** [s.replace(pattern, r)] where [pattern] is one of the fields of
    [numberData.current]: a RegExp, or [null], which [replace] turns into
    the string pattern "null". *)
Definition replace (pattern : option RegExp) (r : replacement) (s : jsstring)
  : jsstring :=
  match pattern with
  | Some re => if global re then replace_all re r s else replace_first re r s
  | None => replace_substring (units "null") r s
  end.

(** *** The hook *)

Record NumberData : Type := {
  group : option RegExp;
  decimal : option RegExp;
  numeral : option RegExp;
  index : option Map
}.

(** [numberData] is the ref; [effect_deps] is the dependency list React
    remembers for the effect ([None] before the first commit); [locale] is
    what [useLocale] returned in the last render. *)
Record state : Type := {
  numberData : NumberData;
  effect_deps : option (list string);
  locale : string
}.

Abbreviation hook := (M state unit).

Definition set_numberData (f : NumberData -> NumberData) : hook :=
  modify (fun s =>
    {| numberData := f (numberData s); effect_deps := effect_deps s;
       locale := locale s |}).

(** [parts.find(d => d.type === t).value] *)
Fixpoint find_value (t : string) (parts : list part) : M state jsstring :=
  match parts with
  | [] => throw TypeError
  | d :: r => if (type d =? t)%string then ret (value d) else find_value t r
  end.

Definition new_RegExp (x : jsstring) (g : bool) : M state RegExp :=
  if plain_class x then ret {| class := x; global := g |}
  else throw Unmodelled.

(** The body of the effect. *)
Definition derive (intl : Intl) (loc : string) : hook :=
  let parts := formatToParts_12345_6 (intl loc) in
  let numerals := rev (spread (format_9876543210 (intl loc))) in
  let index := Map_new (entries_from 0 numerals) in
  g <- find_value "group" parts ;;
  rg <- new_RegExp g true ;;
  set_numberData (fun d =>
    {| group := Some rg; decimal := decimal d; numeral := numeral d;
       index := NumberParser.index d |}) ;;
  dc <- find_value "decimal" parts ;;
  rd <- new_RegExp dc false ;;
  set_numberData (fun d =>
    {| group := group d; decimal := Some rd; numeral := numeral d;
       index := NumberParser.index d |}) ;;
  rn <- new_RegExp (List.concat numerals) true ;;
  set_numberData (fun d =>
    {| group := group d; decimal := decimal d; numeral := Some rn;
       index := NumberParser.index d |}) ;;
  set_numberData (fun d =>
    {| group := group d; decimal := decimal d; numeral := numeral d;
       index := Some index |}).

Fixpoint deps_eqb (a b : list string) : bool :=
  match a, b with
  | [], [] => true
  | x :: a', y :: b' => (x =? y)%string && deps_eqb a' b'
  | _, _ => false
  end.

(** React runs an effect after the first commit, and after a later commit
    when its dependency list differs from the previous one. *)
Definition effect_due (old : option (list string)) (new : list string) : bool :=
  match old with
  | None => true
  | Some o => negb (deps_eqb o new)
  end.

(** A step of the hook that leaves the remembered dependency list alone. *)
Definition keeps_deps {A : Type} (h : M state A) : Prop :=
  forall s, effect_deps (snd (h s)) = effect_deps s.

(** One render of [useNumberParser] under the locale [loc], followed by its
    effect.  The dependency list of the effect is the empty array. *)
Definition render (intl : Intl) (loc : string) : hook :=
  old <- gets effect_deps ;;
  modify (fun s =>
    {| numberData := numberData s; effect_deps := Some []; locale := loc |}) ;;
  if effect_due old [] then derive intl loc else ret tt.

(** An exception in an effect is reported by React; the ref keeps what the
    effect had written. *)
Definition commit (h : hook) (s : state) : state := snd (h s).

Definition initial : state :=
  {| numberData := {| group := None; decimal := None; numeral := None;
                      index := None |};
     effect_deps := None;
     locale := EmptyString |}.

(** The locale tags of the successive renders, the first being the mount. *)
Definition renders (intl : Intl) (locales : list string) : state :=
  fold_left (fun s loc => commit (render intl loc) s) locales initial.

(** The string left after the four cleaning steps of [parse]. *)
Definition clean (d : NumberData) (value : jsstring) : jsstring :=
  replace (numeral d)
    (match index d with Some m => RFunction m | None => RNull end)
    (replace (decimal d) (RString (units "."))
       (replace (group d) (RString []) (trim value))).

(** [parse]: it reads [numberData.current] when it is called. *)
Definition parse (d : NumberData) (value : jsstring) : number :=
  match clean d value with
  | [] => NaN
  | v => ToNumber v
  end.

(** *** Locales whose glyphs are single code units *)

(** The ten numerals of a locale (zero first), its group separator and its
    decimal separator, each one UTF-16 code unit, and what it writes in
    front of a negative value. *)
Record glyphs : Type := {
  zero_to_nine : list N;
  group_glyph : N;
  decimal_glyph : N;
  minus_sign : jsstring
}.

(** The numeral glyph of a digit, and of a run of digits. *)
Definition numeral_of (L : glyphs) (d : nat) : N := nth d (zero_to_nine L) 0%N.

Definition numerals_of (L : glyphs) (ds : list nat) : jsstring :=
  map (numeral_of L) ds.

(** What the platform answers to the two probes for such a locale. *)
Definition NumberFormat_of (L : glyphs) : NumberFormat :=
  {| formatToParts_12345_6 :=
       [{| type := "integer"; value := numerals_of L [1; 2] |};
        {| type := "group"; value := [group_glyph L] |};
        {| type := "integer"; value := numerals_of L [3; 4; 5] |};
        {| type := "decimal"; value := [decimal_glyph L] |};
        {| type := "fraction"; value := numerals_of L [6] |}];
     format_9876543210 := numerals_of L [9; 8; 7; 6; 5; 4; 3; 2; 1; 0] |}.

(** The platform's formatting of a decimal under the numeral, group and
    decimal rules of the locale: the groups of integer digits joined by the
    group separator, then, when there are fraction digits, the decimal
    separator and the fraction digits; a negative value has the minus sign
    of the locale in front. *)
Fixpoint join_groups (L : glyphs) (gs : list (list nat)) : jsstring :=
  match gs with
  | [] => []
  | g :: r =>
      numerals_of L g ++
      match r with
      | [] => []
      | _ => group_glyph L :: join_groups L r
      end
  end.

Definition format_unsigned (L : glyphs) (integer : list (list nat))
    (fraction : list nat) : jsstring :=
  join_groups L integer ++
  match fraction with
  | [] => []
  | _ => decimal_glyph L :: numerals_of L fraction
  end.

(** The formatted value: the minus sign when negative, then the digits. *)
Definition format (L : glyphs) (negative : bool) (integer : list (list nat))
    (fraction : list nat) : jsstring :=
  (if negative then minus_sign L else []) ++ format_unsigned L integer fraction.

(** The Number such a decimal denotes, that is the value of the numeric
    literal with these digits: the double nearest to the decimal. *)
Definition denoted (negative : bool) (integer : list (list nat))
    (fraction : list nat) : number :=
  Number_value negative
    (to_N 10 (map N.of_nat (List.concat integer ++ fraction)))
    (- Z.of_nat (List.length fraction)).

(** The integer part is within the safe range. *)
Definition in_safe_range (integer : list (list nat)) : bool :=
  (to_N 10 (map N.of_nat (List.concat integer)) <=? MAX_SAFE_INTEGER)%N.

Fixpoint distinct (l : list N) : bool :=
  match l with
  | [] => true
  | c :: r => negb (existsb (fun x => (x =? c)%N) r) && distinct r
  end.

(** The numerals are ten distinct code units, none a high surrogate, white
    space, the ASCII point, the ASCII hyphen-minus or a separator; the two
    separators differ and are not the hyphen-minus; and no glyph is special
    inside a character class. *)
Definition well_formed (L : glyphs) : bool :=
  (List.length (zero_to_nine L) =? 10)
  && distinct (zero_to_nine L)
  && forallb (fun c => negb (isHighSurrogate c) && negb (isWhiteSpace c)
                       && negb (c =? 46)%N && negb (c =? 45)%N
                       && negb (c =? group_glyph L)%N
                       && negb (c =? decimal_glyph L)%N) (zero_to_nine L)
  && negb (group_glyph L =? decimal_glyph L)%N
  && negb (group_glyph L =? 45)%N && negb (decimal_glyph L =? 45)%N
  && plain_class [group_glyph L]
  && plain_class [decimal_glyph L]
  && plain_class (zero_to_nine L).

Definition decimal_digits (ds : list nat) : bool :=
  forallb (fun d => d <? 10) ds.

Definition grouped (integer : list (list nat)) : bool :=
  match integer with
  | [] => false
  | _ => forallb (fun g => match g with
                           | [] => false
                           | _ => decimal_digits g
                           end) integer
  end.

(** The descriptor the effect is expected to derive for the locale. *)
Definition descriptor_of (L : glyphs) : NumberData :=
  {| group := Some {| class := [group_glyph L]; global := true |};
     decimal := Some {| class := [decimal_glyph L]; global := false |};
     numeral := Some {| class := zero_to_nine L; global := true |};
     index := Some (entries_from 0 (map (fun c => [c]) (zero_to_nine L))) |}.



Definition all_digits (integer : list (list nat)) : bool :=
  forallb decimal_digits integer.

(** The ASCII digit of a digit value. *)
Definition digit_unit (d : nat) : N := (48 + N.of_nat d)%N.
Definition ascii_digits (ds : list nat) : jsstring := map digit_unit ds.

(** *** Sample platform data *)

Definition ascii_part (t s : string) : part := {| type := t; value := units s |}.

Definition en_US : NumberFormat :=
  {| formatToParts_12345_6 :=
       [ascii_part "integer" "12"; ascii_part "group" ",";
        ascii_part "integer" "345"; ascii_part "decimal" ".";
        ascii_part "fraction" "6"];
     format_9876543210 := units "9876543210" |}.

Definition de_DE : NumberFormat :=
  {| formatToParts_12345_6 :=
       [ascii_part "integer" "12"; ascii_part "group" ".";
        ascii_part "integer" "345"; ascii_part "decimal" ",";
        ascii_part "fraction" "6"];
     format_9876543210 := units "9876543210" |}.

(** Swedish: a no-break space between groups, a decimal comma, and the
    minus sign U+2212 in front of a negative value. *)
Definition sv_SE : NumberFormat :=
  {| formatToParts_12345_6 :=
       [ascii_part "integer" "12"; {| type := "group"; value := [160%N] |};
        ascii_part "integer" "345"; ascii_part "decimal" ",";
        ascii_part "fraction" "6"];
     format_9876543210 := units "9876543210" |}.

Definition sv_SE_minus_5 : jsstring := [8722; 53]%N.

(** The digit [d] of the numbering system [mathsans]: the code point
    U+1D7E2 + d, that is the surrogate pair D835, DFE2 + d. *)
Definition mathsans (d : N) : jsstring := [55349; 57314 + d]%N.

Definition en_mathsans : NumberFormat :=
  {| formatToParts_12345_6 :=
       [{| type := "integer"; value := mathsans 1 ++ mathsans 2 |};
        ascii_part "group" ",";
        {| type := "integer"; value := mathsans 3 ++ mathsans 4 ++ mathsans 5 |};
        ascii_part "decimal" ".";
        {| type := "fraction"; value := mathsans 6 |}];
     format_9876543210 :=
       mathsans 9 ++ mathsans 8 ++ mathsans 7 ++ mathsans 6 ++ mathsans 5
       ++ mathsans 4 ++ mathsans 3 ++ mathsans 2 ++ mathsans 1 ++ mathsans 0 |}.

(** Arabic-Indic digits with the Arabic thousands and decimal separators; a
    negative value starts with the Arabic letter mark U+061C and the
    hyphen-minus. *)
Definition arabic : glyphs :=
  {| zero_to_nine := [1632; 1633; 1634; 1635; 1636; 1637; 1638; 1639; 1640; 1641]%N;
     group_glyph := 1644; decimal_glyph := 1643; minus_sign := [1564; 45]%N |}.

(** Thai digits with the comma and the point, and the hyphen-minus in front
    of a negative value. *)
Definition thai : glyphs :=
  {| zero_to_nine := [3664; 3665; 3666; 3667; 3668; 3669; 3670; 3671; 3672; 3673]%N;
     group_glyph := 44; decimal_glyph := 46; minus_sign := [45]%N |}.

Definition sample_intl : Intl :=
  fun loc =>
    if (loc =? "de-DE")%string then de_DE
    else if (loc =? "sv-SE")%string then sv_SE
    else if (loc =? "en-u-nu-mathsans")%string then en_mathsans
    else en_US.

(** *** Vocabulary for the further properties *)

(** A platform answer without a group part. *)
Definition ungrouped : NumberFormat :=
  {| formatToParts_12345_6 :=
       [ascii_part "integer" "12345"; ascii_part "decimal" ".";
        ascii_part "fraction" "6"];
     format_9876543210 := units "9876543210" |}.

(** White space only. *)
Definition blank (s : jsstring) : bool := forallb isWhiteSpace s.

(** The code units of an ASCII decimal literal: digits, point, hyphen-minus. *)
Definition literal_unit (c : N) : bool :=
  ((48 <=? c) && (c <=? 57) || (c =? 46) || (c =? 45))%N.

(** No glyph of the locale is a code unit of an ASCII decimal literal. *)
Definition ascii_free (L : glyphs) : bool :=
  forallb (fun c => negb (literal_unit c))
          (group_glyph L :: decimal_glyph L :: zero_to_nine L).

End NumberParser.

(** * Properties of useSpinButton *)

Unset Implicit Arguments.

Module SpinButtonFacts.
Import SpinButton.

Section Keyboard.
Context {V : Type} `{JSValue V}.
Implicit Types (p : SpinButtonProps V) (w : world V) (e : KeyboardEvent).

Lemma logged_nil w : logged [] w = w.
Proof. destruct w; unfold logged; simpl. now rewrite app_nil_r. Qed.

Lemma logged_logged l1 l2 w : logged l2 (logged l1 w) = logged (l1 ++ l2) w.
Proof. unfold logged; simpl. now rewrite app_assoc. Qed.

Lemma emit_logged x w : emit x w = (Returned tt, logged [x] w).
Proof. reflexivity. Qed.

Lemma prevent_then_call c w :
  (emit PreventDefault ;; call true c) w
  = (Returned tt, logged [PreventDefault; Call c] w).
Proof.
  unfold bind, call. rewrite !emit_logged, logged_logged. reflexivity.
Qed.

(** A guarded branch of the switch: nothing happens when the callback is
    absent. *)
Lemma guarded_branch (present : bool) c w :
  (if present then emit PreventDefault ;; call present c else ret tt) w
  = (Returned tt, if present then logged [PreventDefault; Call c] w else w).
Proof. destruct present; [apply prevent_then_call | reflexivity]. Qed.

(** With a modifier held, or on a read-only control, the handler returns at
    once. *)
Lemma onKeyDown_ignored p e w :
  anyModifier e || isReadOnly p = true -> onKeyDown p e w = (Returned tt, w).
Proof. intros E. unfold onKeyDown. now rewrite E. Qed.

(** The six guarded callbacks: when the host supplies none of them, every
    key but Enter is left alone. *)
Lemma guarded_callbacks_absent p e w :
  onIncrement p = false -> onIncrementPage p = false ->
  onDecrement p = false -> onDecrementPage p = false ->
  onDecrementToMin p = false -> onIncrementToMax p = false ->
  key e <> "Enter"%string ->
  onKeyDown p e w = (Returned tt, w).
Proof.
  intros E1 E2 E3 E4 E5 E6 Hk. unfold onKeyDown.
  rewrite E1, E2, E3, E4, E5, E6.
  apply String.eqb_neq in Hk. rewrite Hk.
  destruct (anyModifier e || isReadOnly p); [reflexivity|].
  repeat match goal with
         | |- context [if ?b then _ else _] => destruct b
         | |- context [match ?o with Some _ => _ | None => _ end] => destruct o
         end; reflexivity.
Qed.

(** C9. On a key-down with no modifier on a control that is not read-only,
    PageUp calls the page-increment callback once when it is present and
    nothing else; when it is absent PageUp behaves as ArrowUp: it calls the
    single-increment callback once if that one is present and does nothing
    at all if it is absent too.  PageDown is symmetric. *)
Theorem page_keys_fall_back_to_single_step p e w :
  anyModifier e = false ->
  isReadOnly p = false ->
  (key e = "PageUp"%string ->
   onKeyDown p e w =
   (Returned tt,
    if onIncrementPage p then logged [PreventDefault; Call OnIncrementPage] w
    else if onIncrement p then logged [PreventDefault; Call OnIncrement] w
    else w))
  /\
  (key e = "PageDown"%string ->
   onKeyDown p e w =
   (Returned tt,
    if onDecrementPage p then logged [PreventDefault; Call OnDecrementPage] w
    else if onDecrement p then logged [PreventDefault; Call OnDecrement] w
    else w)).
Proof.
  intros Hm Hr; split; intros Hk; unfold onKeyDown; rewrite Hm, Hr, Hk;
    cbn -[emit call logged].
  - destruct (onIncrementPage p); [apply prevent_then_call|].
    apply guarded_branch.
  - destruct (onDecrementPage p); [apply prevent_then_call|].
    apply guarded_branch.
Qed.

Lemma pressStart_present d p delay w :
  step_present d p = true ->
  pressStart d p delay w = (Returned tt, armed d p delay w).
Proof.
  destruct d; simpl; intros E;
    [unfold onIncrementPressStart | unfold onDecrementPressStart];
    rewrite E; reflexivity.
Qed.

Lemma pressStart_absent d p delay w :
  step_present d p = false ->
  pressStart d p delay w = (Threw TypeError, w).
Proof.
  destruct d; simpl; intros E;
    [unfold onIncrementPressStart | unfold onDecrementPressStart];
    rewrite E; reflexivity.
Qed.

(** C10. [isDisabled] gates nothing: the key dispatch of a disabled control
    is that of the same control with the flag off, so that ArrowUp with
    [onIncrement] supplied still prevents the default and increments; and a
    press-start on either button of a disabled control still calls its step
    callback and arms the 400 ms timer. *)
Theorem disabled_flag_gates_nothing p w :
  isDisabled p = true ->
  (forall e, onKeyDown p e w = onKeyDown (with_isDisabled false p) e w)
  /\ (forall e,
        anyModifier e = false -> isReadOnly p = false ->
        key e = "ArrowUp"%string -> onIncrement p = true ->
        onKeyDown p e w
        = (Returned tt, logged [PreventDefault; Call OnIncrement] w))
  /\ (forall d,
        step_present d p = true ->
        onPressStart d p w = (Returned tt, armed d p 400 w)).
Proof.
  intros _. split; [|split].
  - reflexivity.
  - intros e Hm Hr Hk Hi. unfold onKeyDown. rewrite Hm, Hr, Hk, Hi.
    cbn -[emit call logged]. apply prevent_then_call.
  - intros d Hd. now apply pressStart_present.
Qed.

End Keyboard.

Section Timers.
Context {V : Type} `{JSValue V}.
Implicit Types (p : SpinButtonProps V) (w : world V) (t : timer V).

Lemma at_time_now w : at_time (now w) w = w.
Proof. now destruct w. Qed.

Lemma advance_clock_at_time w : advance_clock w = at_time (S (now w)) w.
Proof. reflexivity. Qed.

Lemma filter_none {A} (f : A -> bool) (l : list A) :
  (forall x, In x l -> f x = false) -> filter f l = [].
Proof.
  induction l as [|a l IH]; simpl; intros Hf; [reflexivity|].
  rewrite (Hf a (or_introl eq_refl)). apply IH. intros x Hx. apply Hf. now right.
Qed.

(** No timer is due at the next millisecond: only the clock moves. *)
Lemma tick_quiet w :
  (forall t, In t (timers w) -> S (now w) < due t) -> tick w = advance_clock w.
Proof.
  intros Hq. unfold tick. rewrite filter_none; [reflexivity|].
  intros t Ht. simpl in *. apply Nat.leb_gt. now apply Hq.
Qed.

Lemma elapse_quiet ms w :
  (forall t, In t (timers w) -> now w + ms < due t) ->
  elapse ms w = at_time (now w + ms) w.
Proof.
  revert w. induction ms as [|n IH]; intros w Hq; simpl.
  - rewrite Nat.add_0_r. symmetry. apply at_time_now.
  - rewrite tick_quiet by (intros t Ht; specialize (Hq t Ht); lia).
    rewrite IH.
    + simpl. unfold at_time, advance_clock; simpl. f_equal. lia.
    + simpl. intros t Ht. specialize (Hq t Ht). lia.
Qed.

Lemma elapse_no_timers ms w :
  timers w = [] -> elapse ms w = at_time (now w + ms) w.
Proof. intros E. apply elapse_quiet. rewrite E. intros t []. Qed.

Lemma timer_callback_pressStart t :
  timer_callback t = pressStart (spin t) (closure t) (repeat_interval (spin t)).
Proof. unfold timer_callback. now destruct (spin t). Qed.

(** A pending timer whose step callback is present: firing it removes it,
    calls the step callback once and arms the next timer for the repeat
    interval of its direction. *)
Lemma fire_present t w :
  is_pending (handle t) w = true ->
  step_present (spin t) (closure t) = true ->
  fire t w = armed (spin t) (closure t) (repeat_interval (spin t))
                   (remove_timer (handle t) w).
Proof.
  intros Hp Hs. unfold fire. rewrite Hp, timer_callback_pressStart.
  unfold dispatch. now rewrite pressStart_present.
Qed.


Lemma step_PressStart_present d w :
  step_present d (props w) = true ->
  step w (PressStart d) = armed d (props w) 400 w.
Proof.
  intros E. simpl. unfold dispatch.
  change (onPressStart d (props w)) with (pressStart d (props w) 400).
  now rewrite pressStart_present.
Qed.

Lemma step_PressStart_absent d w :
  step_present d (props w) = false ->
  step w (PressStart d) = logged [Uncaught TypeError] w.
Proof.
  intros E. simpl. unfold dispatch.
  change (onPressStart d (props w)) with (pressStart d (props w) 400).
  now rewrite pressStart_absent.
Qed.

Lemma mount_world p :
  mount p =
  {| now := 0; next_handle := 1; timers := []; _async := None;
     isFocused := false; deps := Some (textValue p, value p); props := p;
     log := [] |}.
Proof. reflexivity. Qed.

(** C8. With the step callback supplied, a press-start calls it once at
    once and then arms one timer for the given delay (400 ms from the
    button); a press-end that comes before those 400 ms have passed leaves
    exactly one call and no repeat, however long one waits afterwards; and
    each timer that fires calls the step callback once and arms the next
    timer for the repeat interval. *)
Theorem press_start_steps_once_then_arms d p :
  step_present d p = true ->
  (forall w delay, pressStart d p delay w = (Returned tt, armed d p delay w))
  /\ (forall n m,
        n < 400 ->
        log (run (mount p) [PressStart d; Elapse n; PressEnd d; Elapse m])
        = [Call (step_callback d)])
  /\ (forall t w,
        spin t = d -> closure t = p ->
        is_pending (handle t) w = true ->
        fire t w = armed d p (repeat_interval d) (remove_timer (handle t) w)).
Proof.
  intros Hi. split; [|split].
  - intros w delay. apply (pressStart_present d p delay w Hi).
  - intros n m Hn. unfold run. cbn [fold_left].
    rewrite step_PressStart_present by exact Hi.
    rewrite mount_world. cbn [step props].
    rewrite (elapse_quiet n).
    2:{ intros t Ht. simpl in Ht. destruct Ht as [<-|[]]. simpl. lia. }
    destruct d; cbn -[elapse];
      rewrite elapse_no_timers by reflexivity; reflexivity.
  - intros t w Hs Hc Hp. subst d p. now apply fire_present.
Qed.

(** *** The single handle slot *)

Lemma tracked_frame h w w' :
  timers w' = timers w -> _async w' = _async w -> tracked h w -> tracked h w'.
Proof. unfold tracked. intros E1 E2 T. rewrite E1, E2. exact T. Qed.

Lemma tracked_idle w : tracked None w -> timers w = [].
Proof. intros [T | (t & _ & _ & X)]; [exact T|discriminate X]. Qed.

Lemma onKeyDown_logs p e w : exists c l, onKeyDown p e w = (c, logged l w).
Proof.
  assert (R : exists c l, @ret (world V) unit tt w = (c, logged l w)).
  { exists (Returned tt), []. now rewrite logged_nil. }
  assert (G : forall (b : bool) (c : callback),
             exists r l,
               (if b then emit PreventDefault ;; call b c else ret tt) w
               = (r, logged l w)).
  { intros b c. rewrite guarded_branch. destruct b; [now eauto|exact R]. }
  unfold onKeyDown.
  destruct (anyModifier e || isReadOnly p); [exact R|].
  destruct (key e =? "Enter")%string.
  { destruct (onValidate p); [rewrite prevent_then_call|];
      do 2 eexists; reflexivity. }
  destruct (key e =? "PageUp")%string.
  { destruct (onIncrementPage p); [rewrite prevent_then_call; now eauto|apply G]. }
  destruct ((key e =? "ArrowUp") || (key e =? "Up"))%string; [apply G|].
  destruct (key e =? "PageDown")%string.
  { destruct (onDecrementPage p); [rewrite prevent_then_call; now eauto|apply G]. }
  destruct ((key e =? "ArrowDown") || (key e =? "Down"))%string; [apply G|].
  destruct (key e =? "Home")%string.
  { destruct (minValue p); [apply G|exact R]. }
  destruct (key e =? "End")%string; [|exact R].
  destruct (maxValue p); [apply G|exact R].
Qed.

(** Keys, focus, blur, renders and unmount leave the timers and the handle
    slot alone. *)
Lemma step_frame w ev :
  match ev with
  | PressStart _ | PressEnd _ | Elapse _ => True
  | _ => timers (step w ev) = timers w /\ _async (step w ev) = _async w
  end.
Proof.
  destruct ev as [e|i| |q|d|d|ms|]; try exact I.
  - simpl. unfold dispatch.
    destruct (onKeyDown_logs (props w) e w) as (c & l & ->).
    destruct c; split; reflexivity.
  - destruct i; split; reflexivity.
  - simpl. unfold dispatch, onBlur, bind, call.
    destruct (onValidate (props w)); split; reflexivity.
  - simpl. unfold dispatch, render, bind, gets, announce_effect.
    cbn -[deps_changed].
    destruct (deps_changed _ _); [|split; reflexivity].
    cbn. destruct (isFocused w); split; reflexivity.
  - split; reflexivity.
Qed.

Lemma step_PressEnd_clears h d w :
  tracked h w -> timers (step w (PressEnd d)) = [].
Proof.
  intros T.
  assert (E : step w (PressEnd d) = dispatch onIncrementPressEnd w)
    by now destruct d.
  rewrite E. unfold dispatch, onIncrementPressEnd, bind, gets.
  destruct T as [T | (t & T & A & _)].
  - destruct (_async w); simpl; rewrite T; reflexivity.
  - rewrite A. simpl. rewrite T. simpl. now rewrite Nat.eqb_refl.
Qed.

Lemma step_PressStart_tracked d w :
  timers w = [] -> tracked (Some d) (step w (PressStart d)).
Proof.
  intros T. destruct (step_present d (props w)) eqn:E.
  - rewrite step_PressStart_present by exact E. right.
    eexists. simpl. rewrite T. split; [reflexivity|]. split; reflexivity.
  - rewrite step_PressStart_absent by exact E. left. exact T.
Qed.

Lemma tick_tracked h w : tracked h w -> tracked h (tick w).
Proof.
  intros [T | (t & T & A & Hh)].
  - rewrite tick_quiet by (rewrite T; intros ? []). now left.
  - unfold tick. cbn [advance_clock timers now]. rewrite T. cbn [filter].
    destruct (due t <=? S (now w)); cbn [fold_left].
    2:{ right. exists t. now repeat split. }
    assert (P : is_pending (handle t) (advance_clock w) = true).
    { unfold is_pending. simpl. rewrite T. simpl. now rewrite Nat.eqb_refl. }
    assert (R : timers (remove_timer (handle t) (advance_clock w)) = []).
    { simpl. rewrite T. simpl. now rewrite Nat.eqb_refl. }
    destruct (step_present (spin t) (closure t)) eqn:E.
    + rewrite fire_present by assumption. right.
      eexists. simpl timers. simpl in R. rewrite R.
      split; [reflexivity|]. split; [reflexivity|exact Hh].
    + unfold fire. rewrite P, timer_callback_pressStart. unfold dispatch.
      rewrite pressStart_absent by exact E. left. exact R.
Qed.

Lemma elapse_tracked h ms w : tracked h w -> tracked h (elapse ms w).
Proof.
  revert w. induction ms as [|n IH]; intros w T; simpl; [exact T|].
  apply IH. now apply tick_tracked.
Qed.

(** Along a trace with one press at a time the single slot is enough. *)
Lemma run_held_after tr :
  forall h h' w,
    tracked h w -> held_after h tr = Some h' -> tracked h' (run w tr).
Proof.
  induction tr as [|ev tr IH]; intros h h' w T Ho.
  { simpl in Ho. injection Ho as <-. exact T. }
  unfold run. cbn [fold_left]. fold (run (step w ev) tr).
  pose proof (step_frame w ev) as F.
  assert (Frame : timers (step w ev) = timers w ->
                  _async (step w ev) = _async w ->
                  held_after h tr = Some h' ->
                  tracked h' (run (step w ev) tr)).
  { intros Ft Fa Ho'. apply (IH h); [exact (tracked_frame h w _ Ft Fa T)|exact Ho']. }
  destruct ev as [e|i| |q|d|d|ms|]; cbn [held_after] in Ho;
    try (now apply Frame; [apply F|apply F|exact Ho]).
  - destruct h as [d'|]; [discriminate Ho|].
    apply (IH (Some d)); [|exact Ho].
    apply step_PressStart_tracked. now apply tracked_idle.
  - apply (IH None); [|exact Ho]. left. now apply (step_PressEnd_clears h).
  - apply (IH h); [|exact Ho]. now apply elapse_tracked.
Qed.

Lemma live_tracked h w d : tracked h w -> List.length (live d w) <= 1.
Proof.
  unfold live. intros [T | (t & T & _)]; rewrite T; simpl; [lia|].
  destruct (spin t), d; simpl; lia.
Qed.

(** With one press at a time the single handle slot is enough: in every
    sequence of events in which a press starts only when no press is held,
    at most one timer is pending at any time, it is the one [_async]
    refers to, and it repeats the direction of the press being held. *)
Lemma one_press_at_a_time_keeps_one_timer p tr h :
  held_after None tr = Some h ->
  tracked h (run (mount p) tr)
  /\ forall d, List.length (live d (run (mount p) tr)) <= 1.
Proof.
  intros Ho.
  assert (T : tracked h (run (mount p) tr)).
  { apply (run_held_after tr None); [now left|exact Ho]. }
  split; [exact T|]. intros d. now apply (live_tracked h).
Qed.

(** C2, as the code has it.  In every sequence of events in which a press
    starts only when no press is held, a press-end cancels the pending
    repeat timer at once: no timer is pending after it, and however much
    time passes no deferred callback runs. *)
Theorem press_end_cancels_the_pending_repeat p tr h d :
  held_after None tr = Some h ->
  timers (run (mount p) (tr ++ [PressEnd d])) = []
  /\ cancels (PressEnd d) (run (mount p) tr).
Proof.
  intros Ho.
  assert (T : tracked h (run (mount p) tr)).
  { apply (run_held_after tr None); [now left|exact Ho]. }
  assert (E : timers (step (run (mount p) tr) (PressEnd d)) = [])
    by now apply (step_PressEnd_clears h).
  split.
  - unfold run. rewrite fold_left_app. exact E.
  - intros ms. now rewrite elapse_no_timers.
Qed.

End Timers.

(** C3. Enter and blur call [onValidate] without testing it: when the host
    did not supply it, Enter prevents the default and then raises a
    TypeError, and blur raises a TypeError after clearing the focus flag. *)
Theorem enter_and_blur_throw_without_onValidate (w : world Z) :
  onKeyDown steps_only (plain_key "Enter") w
  = (Threw TypeError, logged [PreventDefault] w)
  /\ fst (onBlur steps_only w) = Threw TypeError.
Proof. split; reflexivity. Qed.

(** C2, refuted as stated: unmounting while a press is held cancels
    nothing, and the timer fires 400 ms later. *)
Lemma unmount_does_not_cancel :
  ~ cancels Unmount (run (mount steps_only) [PressStart Increment]).
Proof.
  intros C. specialize (C 400). vm_compute in C. discriminate C.
Qed.

(** A press of each button in turn, with an unmount in between. *)
Lemma press_end_cancels_witness :
  timers (run (mount steps_only)
            ([PressStart Increment; Elapse 500; PressEnd Increment;
              PressStart Decrement; Unmount] ++ [PressEnd Decrement])) = []
  /\ cancels (PressEnd Decrement)
       (run (mount steps_only)
            [PressStart Increment; Elapse 500; PressEnd Increment;
             PressStart Decrement; Unmount]).
Proof.
  apply (press_end_cancels_the_pending_repeat steps_only
           [PressStart Increment; Elapse 500; PressEnd Increment;
            PressStart Decrement; Unmount] (Some Decrement) Decrement).
  reflexivity.
Defined.

(** With increment pressed, then decrement pressed, then increment
    released, the release clears the timer of the decrement button and
    leaves the increment one: a new press of increment puts a second
    increment timer next to the first, and 400 ms after the first press the
    increment callback has run once more than in the same trace without
    the decrement press. *)
Lemma both_held_share_the_handle :
  ~ (forall d,
       List.length
         (live d (run (mount steps_only)
                    [PressStart Increment; PressStart Decrement;
                     PressEnd Increment; PressStart Increment])) <= 1)
  /\ calls OnIncrement
       (run (mount steps_only)
          [PressStart Increment; PressStart Decrement; PressEnd Increment;
           Elapse 400])
     <> calls OnIncrement
          (run (mount steps_only)
             (without Decrement
                [PressStart Increment; PressStart Decrement;
                 PressEnd Increment; Elapse 400])).
Proof.
  split.
  - intros C. specialize (C Increment). vm_compute in C. lia.
  - vm_compute. discriminate.
Qed.

(** Decrement pressed and held for two repeats. *)
Lemma one_press_witness :
  tracked (Some Decrement)
    (run (mount steps_only) [PressStart Decrement; Elapse 480])
  /\ forall d,
       List.length
         (live d (run (mount steps_only) [PressStart Decrement; Elapse 480]))
       <= 1.
Proof.
  apply (one_press_at_a_time_keeps_one_timer steps_only
           [PressStart Decrement; Elapse 480] (Some Decrement)).
  reflexivity.
Defined.

(** The trace of [both_held_share_the_handle] in full: the only timer left
    is the increment one, it fires although increment was released,
    decrement does not repeat although it is held, and after both buttons
    are released the increments go on. *)
Lemma shared_handle_crosses_directions :
  let w := run (mount steps_only)
             [PressStart Increment; PressStart Decrement; PressEnd Increment] in
  map (@spin Z) (timers w) = [Increment]
  /\ log (run w [Elapse 400])
     = [Call OnIncrement; Call OnDecrement; Call OnIncrement]
  /\ List.length (live Increment (run w [PressStart Increment])) = 2
  /\ calls OnIncrement (run w [PressEnd Decrement; Elapse 1000]) = 12.
Proof. vm_compute. repeat split. Qed.

Section Announcements.
Context {V : Type} `{JSValue V}.
Implicit Types (p : SpinButtonProps V) (w : world V).

Lemma same_text_eq (a b : option string) : same_text a b = true -> a = b.
Proof.
  destruct a as [x|], b as [y|]; simpl; intros E; try discriminate; auto.
  apply String.eqb_eq in E. now subst.
Qed.

Lemma same_text_refl (a : option string) : same_text a a = true.
Proof. destruct a; simpl; [apply String.eqb_refl|reflexivity]. Qed.

(** Equal dependencies display the same text. *)
Lemma displayed_same t v t' v' :
  same_text t t' = true -> Object_is v v' = true ->
  displayed t v = displayed t' v'.
Proof.
  intros Et Ev. apply same_text_eq in Et. subst t'.
  apply Object_is_ToString in Ev. unfold displayed.
  destruct t as [s|]; [destruct (s =? EmptyString)%string|]; auto.
Qed.

Lemma render_changed p w :
  deps_changed (deps w) (textValue p, value p) = true ->
  log (step w (Render p))
  = if isFocused w
    then log w ++ [Announce (displayed (textValue p) (value p))]
    else log w.
Proof.
  intros E. simpl. unfold dispatch, render, bind, gets, announce_effect.
  cbn -[deps_changed displayed]. rewrite E.
  cbn -[displayed]. destruct (isFocused w); reflexivity.
Qed.

Lemma render_unchanged p w :
  deps_changed (deps w) (textValue p, value p) = false ->
  log (step w (Render p)) = log w.
Proof.
  intros E. simpl. unfold dispatch, render, bind, gets.
  cbn -[deps_changed]. rewrite E. reflexivity.
Qed.

End Announcements.

(** PageUp on a host with the two step callbacks only: one increment. *)
Lemma page_keys_witness :
  onKeyDown steps_only (plain_key "PageUp") (mount steps_only)
  = (Returned tt, logged [PreventDefault; Call OnIncrement] (mount steps_only)).
Proof.
  apply (proj1 (page_keys_fall_back_to_single_step
                  steps_only (plain_key "PageUp") (mount steps_only)
                  eq_refl eq_refl)).
  reflexivity.
Defined.

(** ArrowUp on a disabled control still increments. *)
Lemma disabled_witness :
  onKeyDown (with_isDisabled true full) (plain_key "ArrowUp") (mount full)
  = (Returned tt, logged [PreventDefault; Call OnIncrement] (mount full)).
Proof.
  apply (proj1 (proj2 (disabled_flag_gates_nothing
                         (with_isDisabled true full) (mount full) eq_refl)));
    reflexivity.
Defined.

(** Increment pressed for 399 ms: one call, and none in the second after. *)
Lemma press_start_witness :
  log (run (mount steps_only)
         [PressStart Increment; Elapse 399; PressEnd Increment; Elapse 1000])
  = [Call OnIncrement].
Proof.
  apply (proj1 (proj2 (press_start_steps_once_then_arms
                         Increment steps_only eq_refl))).
  lia.
Defined.

End SpinButtonFacts.

(** * Properties of useNumberParser *)

Module NumberParserFacts.
Import NumberParser.

Lemma trimStart_blank (s : jsstring) :
  forallb isWhiteSpace s = true -> trimStart s = [].
Proof.
  induction s as [|c s IH]; simpl; [reflexivity|].
  intros E. apply andb_prop in E. destruct E as [Ec Es]. rewrite Ec. now apply IH.
Qed.

Lemma trim_blank (s : jsstring) : forallb isWhiteSpace s = true -> trim s = [].
Proof. intros E. unfold trim. now rewrite trimStart_blank. Qed.

Lemma replace_empty (pattern : option RegExp) (r : replacement) :
  replace pattern r [] = [].
Proof. destruct pattern as [[c [|]]|]; reflexivity. Qed.

Lemma clean_blank (d : NumberData) (s : jsstring) :
  forallb isWhiteSpace s = true -> clean d s = [].
Proof.
  intros E. unfold clean. rewrite trim_blank by exact E.
  now rewrite !replace_empty.
Qed.

(** C6. Whatever [numberData.current] holds (the nulls before the effect
    ran included), [parse] returns NaN for an input that is empty or all
    whitespace, for an input that the four cleaning steps leave empty, and
    for an input whose cleaned string is not a numeric literal.  [parse]
    is total: no step of it can raise. *)
Theorem blank_input_parses_to_NaN (d : NumberData) (s : jsstring) :
  (forallb isWhiteSpace s = true -> parse d s = NaN)
  /\ (clean d s = [] -> parse d s = NaN)
  /\ (ToNumber (clean d s) = NaN -> parse d s = NaN).
Proof.
  unfold parse. repeat split.
  - intros E. now rewrite clean_blank.
  - now intros ->.
  - intros E. now destruct (clean d s).
Qed.

(** The cleaned string is tested for emptiness only: under en-US the input
    made of a comma, a space and a comma is cleaned to one space, which is
    a numeric literal of value zero. *)
Lemma separators_around_a_space_parse_to_zero :
  parse (numberData (renders sample_intl ["en-US"]%string)) (units ", ,")
  = Finite false 0 0.
Proof. reflexivity. Qed.

(** Once mounted, the effect never runs again: its dependency list is the
    empty array, which never differs from itself. *)
Lemma render_after_mount (intl : Intl) (loc : string) (s : state) :
  effect_deps s = Some [] ->
  commit (render intl loc) s
  = {| numberData := numberData s; effect_deps := Some []; locale := loc |}.
Proof. intros E. unfold commit, render, bind, gets, modify. now rewrite E. Qed.

(** No step of the effect touches the remembered dependency list. *)
Lemma keeps_deps_bind {A B : Type} (c : M state A) (k : A -> M state B) :
  keeps_deps c -> (forall a, keeps_deps (k a)) -> keeps_deps (bind c k).
Proof.
  intros Hc Hk s. unfold bind. specialize (Hc s).
  destruct (c s) as [[a|e] s']; simpl in *; [|exact Hc].
  now rewrite Hk.
Qed.

Lemma keeps_deps_find_value (t : string) (parts : list part) :
  keeps_deps (find_value t parts).
Proof.
  intros s. induction parts as [|d r IH]; simpl; [reflexivity|].
  now destruct (type d =? t)%string.
Qed.

Lemma keeps_deps_new_RegExp (x : jsstring) (g : bool) :
  keeps_deps (new_RegExp x g).
Proof. intros s. unfold new_RegExp. now destruct (plain_class x). Qed.

Lemma keeps_deps_set_numberData (f : NumberData -> NumberData) :
  keeps_deps (set_numberData f).
Proof. intros s. reflexivity. Qed.

Lemma effect_deps_derive (intl : Intl) (loc : string) (s : state) :
  effect_deps (snd (derive intl loc s)) = effect_deps s.
Proof.
  revert s. change (keeps_deps (derive intl loc)). unfold derive.
  repeat first
    [ apply keeps_deps_bind; [|intros ?]
    | apply keeps_deps_find_value
    | apply keeps_deps_new_RegExp
    | apply keeps_deps_set_numberData ].
Qed.

Lemma effect_deps_render (intl : Intl) (loc : string) (s : state) :
  effect_deps (commit (render intl loc) s) = Some [].
Proof.
  unfold commit, render, bind, gets, modify.
  destruct (effect_due (effect_deps s) []); [|reflexivity].
  now rewrite effect_deps_derive.
Qed.

(** The descriptor is the one derived at mount, whatever the locales of the
    later renders. *)
Lemma numberData_fixed_at_mount (intl : Intl) (loc : string) (later : list string) :
  numberData (renders intl (loc :: later)) = numberData (renders intl [loc]).
Proof.
  unfold renders. cbn [fold_left].
  assert (E := effect_deps_render intl loc initial).
  revert E. generalize (commit (render intl loc) initial) as s.
  induction later as [|l later IH]; intros s E; [reflexivity|].
  cbn [fold_left]. rewrite render_after_mount by exact E.
  now rewrite IH.
Qed.

(** C4. The effect that derives the descriptor has no dependency: mounted
    under en-US and rendered again under de-DE, the hook still holds the
    en-US descriptor, and [parse] reads the German "1.234,5" as 1.2345
    (the double nearest to it, 1.23449999999999993072...) where the de-DE
    descriptor gives 1234.5. *)
Theorem descriptor_survives_locale_change :
  numberData (renders sample_intl ["en-US"; "de-DE"]%string)
  = numberData (renders sample_intl ["en-US"]%string)
  /\ parse (numberData (renders sample_intl ["en-US"; "de-DE"]%string))
           (units "1.234,5")
     = Finite false 12344999999999999307220832633902318775653839111328125 (-52)
  /\ Number_value false 12345 (-4)
     = Finite false 12344999999999999307220832633902318775653839111328125 (-52)
  /\ parse (numberData (renders sample_intl ["de-DE"]%string))
           (units "1.234,5") = Finite false 12345 (-1)
  /\ same_number
       (Finite false 12344999999999999307220832633902318775653839111328125 (-52))
       (Finite false 12345 (-1)) = false.
Proof. vm_compute. repeat split. Qed.

(** *** The round trip where glyphs are single code units *)

Section RoundTrip.
Variable L : glyphs.
Hypothesis WF : well_formed L = true.

Lemma wf_length : List.length (zero_to_nine L) = 10.
Proof.
  unfold well_formed in WF. repeat (apply andb_prop in WF; destruct WF as [WF ?]).
  now apply Nat.eqb_eq.
Qed.

Lemma wf_distinct : distinct (zero_to_nine L) = true.
Proof.
  unfold well_formed in WF. repeat (apply andb_prop in WF; destruct WF as [WF ?]).
  assumption.
Qed.

Lemma wf_numeral c :
  In c (zero_to_nine L) ->
  isHighSurrogate c = false /\ isWhiteSpace c = false /\ (c =? 46)%N = false
  /\ (c =? 45)%N = false
  /\ (c =? group_glyph L)%N = false /\ (c =? decimal_glyph L)%N = false.
Proof.
  intros Hc.
  unfold well_formed in WF. repeat (apply andb_prop in WF; destruct WF as [WF ?]).
  match goal with
  | F : forallb _ _ = true |- _ =>
      rewrite forallb_forall in F; specialize (F c Hc);
      repeat (apply andb_prop in F; destruct F as [F ?])
  end.
  repeat split; now apply negb_true_iff.
Qed.

Lemma wf_separators :
  (group_glyph L =? decimal_glyph L)%N = false
  /\ (group_glyph L =? 45)%N = false /\ (decimal_glyph L =? 45)%N = false.
Proof.
  unfold well_formed in WF. repeat (apply andb_prop in WF; destruct WF as [WF ?]).
  repeat split; now apply negb_true_iff.
Qed.

Lemma wf_plain :
  plain_class [group_glyph L] = true /\ plain_class [decimal_glyph L] = true
  /\ plain_class (zero_to_nine L) = true.
Proof.
  unfold well_formed in WF. repeat (apply andb_prop in WF; destruct WF as [WF ?]).
  auto.
Qed.

Lemma numeral_of_In d : d < 10 -> In (numeral_of L d) (zero_to_nine L).
Proof. intros Hd. apply nth_In. rewrite wf_length. exact Hd. Qed.

End RoundTrip.

Lemma spread_singles (s : jsstring) :
  forallb (fun c => negb (isHighSurrogate c)) s = true ->
  spread s = map (fun c => [c]) s.
Proof.
  induction s as [|c r IH]; [reflexivity|].
  intros E. simpl in E. apply andb_prop in E. destruct E as [Ec Er].
  apply negb_true_iff in Ec. simpl. rewrite Ec. simpl.
  destruct r as [|c' r']; [reflexivity|]. now rewrite IH.
Qed.

Lemma concat_singles (s : jsstring) : List.concat (map (fun c => [c]) s) = s.
Proof. induction s as [|c r IH]; simpl; [reflexivity|now rewrite IH]. Qed.

Lemma Map_get_app_miss (m : Map) (k k' : jsstring) (v : nat) :
  Map_get m k' = None -> jsstring_eqb k k' = false ->
  Map_get (m ++ [(k, v)]) k' = None.
Proof.
  intros Hm Hk. induction m as [|[a b] m IH]; simpl in *.
  - now rewrite Hk.
  - destruct (jsstring_eqb a k'); [discriminate|auto].
Qed.

Lemma jsstring_eqb_sym (a b : jsstring) : jsstring_eqb a b = jsstring_eqb b a.
Proof.
  revert b. induction a as [|x a IH]; destruct b as [|y b]; simpl; auto.
  now rewrite N.eqb_sym, IH.
Qed.

Lemma Map_set_fresh (m : Map) (k : jsstring) (v : nat) :
  Map_get m k = None -> Map_set m k v = m ++ [(k, v)].
Proof.
  induction m as [|[a b] m IH]; simpl; [reflexivity|].
  destruct (jsstring_eqb a k); [discriminate|]. intros E. now rewrite IH.
Qed.

Lemma Map_new_distinct (l : list N) :
  forall n acc,
    distinct l = true ->
    (forall c, In c l -> Map_get acc [c] = None) ->
    fold_left (fun m kv => Map_set m (fst kv) (snd kv))
              (entries_from n (map (fun c => [c]) l)) acc
    = acc ++ entries_from n (map (fun c => [c]) l).
Proof.
  induction l as [|c r IH]; intros n acc Hd Hacc; simpl.
  - now rewrite app_nil_r.
  - simpl in Hd. apply andb_prop in Hd. destruct Hd as [Hc Hr].
    apply negb_true_iff in Hc.
    rewrite Map_set_fresh by (apply Hacc; now left).
    rewrite IH; [now rewrite <- app_assoc|exact Hr|].
    intros c' Hc'. apply Map_get_app_miss; [apply Hacc; now right|].
    simpl. rewrite andb_true_r.
    destruct (c =? c')%N eqn:E; [|reflexivity].
    apply N.eqb_eq in E. subst c'.
    assert (X : existsb (fun x => (x =? c)%N) r = true).
    { apply existsb_exists. exists c. split; [exact Hc'|apply N.eqb_refl]. }
    congruence.
Qed.

Lemma Map_get_entries (l : list N) :
  forall n d,
    distinct l = true -> d < List.length l ->
    Map_get (entries_from n (map (fun c => [c]) l)) [nth d l 0%N] = Some (n + d).
Proof.
  induction l as [|c r IH]; intros n d Hd Hlt; simpl in *; [lia|].
  apply andb_prop in Hd. destruct Hd as [Hc Hr]. apply negb_true_iff in Hc.
  destruct d as [|d].
  - rewrite N.eqb_refl. simpl. f_equal. lia.
  - assert (E : (c =? nth d r 0%N)%N = false).
    { destruct (c =? nth d r 0%N)%N eqn:E; [|reflexivity].
      apply N.eqb_eq in E.
      assert (X : existsb (fun x => (x =? c)%N) r = true).
      { apply existsb_exists. exists (nth d r 0%N). split.
        - apply nth_In. lia.
        - rewrite E. apply N.eqb_refl. }
      congruence. }
    rewrite E. simpl. rewrite IH by (auto; lia). f_equal. lia.
Qed.

(** The descriptor the effect derives for a well-formed locale. *)
Lemma derive_well_formed (L : glyphs) (loc : string) :
  well_formed L = true ->
  numberData (renders (fun _ => NumberFormat_of L) [loc]) = descriptor_of L.
Proof.
  intros WF.
  destruct (wf_plain L WF) as (Pg & Pd & Pn).
  pose proof (wf_length L WF) as Len.
  assert (Sp : rev (spread (numerals_of L [9; 8; 7; 6; 5; 4; 3; 2; 1; 0]))
               = map (fun c => [c]) (zero_to_nine L)).
  { rewrite spread_singles.
    - rewrite <- map_rev. f_equal. unfold numerals_of, numeral_of.
      destruct (zero_to_nine L) as [|z0 [|z1 [|z2 [|z3 [|z4 [|z5 [|z6 [|z7 [|z8 [|z9 [|]]]]]]]]]]];
        try discriminate Len. reflexivity.
    - apply forallb_forall. intros c Hc. apply in_map_iff in Hc.
      destruct Hc as (d & <- & Hd). apply negb_true_iff.
      apply (wf_numeral L WF). apply (numeral_of_In L WF).
      simpl in Hd. lia. }
  unfold renders, commit, render, derive, bind, gets, modify, set_numberData,
    new_RegExp. cbn -[numerals_of spread Map_new plain_class].
  rewrite Pg. cbn -[numerals_of spread Map_new plain_class].
  rewrite Pd. cbn -[numerals_of spread Map_new plain_class].
  rewrite Sp, concat_singles, Pn. cbn -[Map_new].
  unfold descriptor_of. do 2 f_equal. unfold Map_new.
  rewrite Map_new_distinct; [reflexivity|apply (wf_distinct L WF)|reflexivity].
Qed.



Lemma replace_all_app (re : RegExp) (r : replacement) (a b : jsstring) :
  replace_all re r (a ++ b) = replace_all re r a ++ replace_all re r b.
Proof.
  induction a as [|c a IH]; simpl; [reflexivity|].
  now rewrite IH, app_assoc.
Qed.

Lemma trimStart_head (c : N) (r : jsstring) :
  isWhiteSpace c = false -> trimStart (c :: r) = c :: r.
Proof. intros E. simpl. now rewrite E. Qed.

(** A string that neither starts nor ends with white space is its own trim. *)
Lemma trim_ends (c l : N) (r s' : jsstring) :
  c :: r = s' ++ [l] ->
  isWhiteSpace c = false -> isWhiteSpace l = false ->
  trim (c :: r) = c :: r.
Proof.
  intros E Hc Hl. unfold trim, trimEnd. rewrite trimStart_head by exact Hc.
  rewrite E, rev_app_distr. simpl rev at 2. cbn [app].
  rewrite trimStart_head by exact Hl.
  simpl. now rewrite rev_involutive.
Qed.

Lemma trim_no_white_space (s : jsstring) :
  forallb (fun c => negb (isWhiteSpace c)) s = true -> trim s = s.
Proof.
  intros E. destruct s as [|c r]; [reflexivity|].
  rewrite forallb_forall in E.
  destruct (@exists_last _ (c :: r)) as (s' & l & El); [discriminate|].
  apply (trim_ends c l r s' El).
  - apply negb_true_iff, E. now left.
  - apply negb_true_iff, E. rewrite El. apply in_or_app. right. now left.
Qed.

Section Cleaning.
Variable L : glyphs.
Hypothesis WF : well_formed L = true.

Lemma decimal_digits_In (ds : list nat) (d : nat) :
  decimal_digits ds = true -> In d ds -> d < 10.
Proof.
  unfold decimal_digits. rewrite forallb_forall. intros F Hd.
  now apply Nat.ltb_lt, F.
Qed.

Lemma numerals_survive (re : RegExp) (r : replacement) (ds : list nat) :
  (forall d, d < 10 -> matches re (numeral_of L d) = false) ->
  decimal_digits ds = true ->
  replace_all re r (numerals_of L ds) = numerals_of L ds
  /\ replace_first re r (numerals_of L ds) = numerals_of L ds.
Proof.
  intros Hm. induction ds as [|d ds IH]; simpl; [now split|].
  intros E. apply andb_prop in E. destruct E as [Ed Eds].
  apply Nat.ltb_lt in Ed. rewrite (Hm d Ed).
  destruct (IH Eds) as [IH1 IH2]. unfold numerals_of in *.
  now rewrite IH1, IH2.
Qed.

Lemma group_misses_numerals d :
  d < 10 ->
  matches {| class := [group_glyph L]; global := true |} (numeral_of L d) = false.
Proof.
  intros Hd. unfold matches. simpl. rewrite orb_false_r, N.eqb_sym.
  apply (wf_numeral L WF). now apply numeral_of_In.
Qed.

Lemma decimal_misses_numerals d :
  d < 10 ->
  matches {| class := [decimal_glyph L]; global := false |} (numeral_of L d) = false.
Proof.
  intros Hd. unfold matches. simpl. rewrite orb_false_r, N.eqb_sym.
  apply (wf_numeral L WF). now apply numeral_of_In.
Qed.

Lemma grouped_all_digits integer : grouped integer = true -> all_digits integer = true.
Proof.
  unfold grouped, all_digits. destruct integer as [|g0 r]; [discriminate|].
  intros E. rewrite forallb_forall in *. intros x Hx. specialize (E x Hx).
  now destruct x.
Qed.

Lemma all_digits_concat integer :
  all_digits integer = true -> decimal_digits (List.concat integer) = true.
Proof.
  unfold all_digits, decimal_digits.
  induction integer as [|a r IH]; simpl; [reflexivity|].
  intros E. apply andb_prop in E. destruct E as [Ea Er].
  rewrite forallb_app. unfold decimal_digits in Ea. now rewrite Ea, IH.
Qed.

(** Stripping the group separator leaves the numerals of all the groups. *)
Lemma strip_groups integer :
  all_digits integer = true ->
  replace_all {| class := [group_glyph L]; global := true |} (RString [])
    (join_groups L integer)
  = numerals_of L (List.concat integer).
Proof.
  induction integer as [|a r IH]; [reflexivity|].
  intros E. simpl in E. apply andb_prop in E. destruct E as [Ea Er].
  cbn [join_groups List.concat]. rewrite replace_all_app.
  rewrite (proj1 (numerals_survive _ _ a group_misses_numerals Ea)).
  unfold numerals_of at 2. rewrite map_app. f_equal.
  destruct r as [|b r']; [reflexivity|].
  cbn [replace_all]. unfold matches at 1. cbn [class existsb].
  rewrite N.eqb_refl. cbn [orb replace_with app].
  now apply IH.
Qed.

Lemma replace_first_prefix (re : RegExp) (r : replacement) (ds : list nat)
    (c : N) (rest : jsstring) :
  (forall d, d < 10 -> matches re (numeral_of L d) = false) ->
  decimal_digits ds = true ->
  matches re c = true ->
  replace_first re r (numerals_of L ds ++ c :: rest)
  = numerals_of L ds ++ replace_with r [c] ++ rest.
Proof.
  intros Hm E Hc. induction ds as [|d ds IH]; simpl.
  - now rewrite Hc.
  - simpl in E. apply andb_prop in E. destruct E as [Ed Eds].
    apply Nat.ltb_lt in Ed. rewrite (Hm d Ed). f_equal. now apply IH.
Qed.

Lemma String_of_index_digit d : d < 10 -> String_of_index d = [digit_unit d].
Proof.
  intros Hd. do 10 (destruct d as [|d]; [reflexivity|]). exfalso. lia.
Qed.

(** Every numeral glyph is replaced by the ASCII digit of its index. *)
Lemma numerals_to_ascii (ds : list nat) :
  decimal_digits ds = true ->
  replace_all {| class := zero_to_nine L; global := true |}
    (RFunction (entries_from 0 (map (fun c => [c]) (zero_to_nine L))))
    (numerals_of L ds)
  = ascii_digits ds.
Proof.
  induction ds as [|d ds IH]; [reflexivity|].
  intros E. simpl in E. apply andb_prop in E. destruct E as [Ed Eds].
  apply Nat.ltb_lt in Ed. cbn [numerals_of map replace_all].
  assert (Hm : matches {| class := zero_to_nine L; global := true |}
                 (numeral_of L d) = true).
  { unfold matches. apply existsb_exists. exists (numeral_of L d).
    split; [now apply numeral_of_In|apply N.eqb_refl]. }
  rewrite Hm. cbn [replace_with]. unfold numeral_of at 1.
  rewrite Map_get_entries;
    [|apply (wf_distinct L WF)|rewrite (wf_length L WF); exact Ed].
  cbn [Nat.add]. rewrite String_of_index_digit by exact Ed.
  cbn [app ascii_digits map]. f_equal. now apply IH.
Qed.

Lemma point_is_no_numeral :
  matches {| class := zero_to_nine L; global := true |} 46%N = false.
Proof.
  unfold matches. cbn [class].
  destruct (existsb (fun m => (m =? 46)%N) (zero_to_nine L)) eqn:E; [|reflexivity].
  apply existsb_exists in E. destruct E as (c & Hc & E).
  destruct (wf_numeral L WF c Hc) as (_ & _ & X & _). congruence.
Qed.

(** The formatted string starts and ends with a numeral. *)
Lemma join_groups_last integer :
  grouped integer = true ->
  exists s d, d < 10 /\ join_groups L integer = s ++ [numeral_of L d].
Proof.
  intros G. pose proof (grouped_all_digits _ G) as AD.
  unfold grouped in G. destruct integer as [|a r]; [discriminate|].
  revert a G AD. induction r as [|b r IH]; intros a G AD.
  - simpl in G. rewrite andb_true_r in G. destruct a as [|d0 a']; [discriminate|].
    destruct (@exists_last _ (d0 :: a')) as (a0 & d & Ea); [discriminate|].
    exists (numerals_of L a0), d. split.
    + apply (decimal_digits_In (d0 :: a')); [exact G|].
      rewrite Ea. apply in_or_app. right. now left.
    + cbn [join_groups]. rewrite app_nil_r, Ea. unfold numerals_of.
      now rewrite map_app.
  - cbn [forallb] in G. apply andb_prop in G. destruct G as [Ga Gr].
    simpl in AD. apply andb_prop in AD. destruct AD as [_ ADr].
    destruct (IH b Gr ADr) as (s & d & Hd & Es).
    exists (numerals_of L a ++ group_glyph L :: s), d. split; [exact Hd|].
    change (join_groups L (a :: b :: r))
      with (numerals_of L a ++ group_glyph L :: join_groups L (b :: r)).
    rewrite Es. now rewrite <- app_assoc.
Qed.

Lemma format_unsigned_last integer fraction :
  grouped integer = true -> decimal_digits fraction = true ->
  exists s d, d < 10 /\ format_unsigned L integer fraction = s ++ [numeral_of L d].
Proof.
  intros G F. unfold format_unsigned. destruct fraction as [|f0 fr].
  - rewrite app_nil_r. now apply join_groups_last.
  - destruct (@exists_last _ (f0 :: fr)) as (f' & d & Ef); [discriminate|].
    exists (join_groups L integer ++ decimal_glyph L :: numerals_of L f'), d.
    split.
    + apply (decimal_digits_In (f0 :: fr)); [exact F|].
      rewrite Ef. apply in_or_app. right. now left.
    + rewrite Ef. unfold numerals_of. rewrite map_app. cbn [map].
      now rewrite <- app_assoc.
Qed.

Lemma format_unsigned_first integer fraction :
  grouped integer = true ->
  exists d0 r, d0 < 10 /\ format_unsigned L integer fraction = numeral_of L d0 :: r.
Proof.
  intros G. unfold grouped in G. destruct integer as [|a r]; [discriminate|].
  cbn [forallb] in G. apply andb_prop in G. destruct G as [Ga _].
  destruct a as [|d0 a']; [discriminate|].
  eexists d0, _. split.
  - apply (decimal_digits_In (d0 :: a')); [exact Ga|now left].
  - unfold format_unsigned. cbn [join_groups numerals_of map app]. reflexivity.
Qed.

Lemma trim_format negative integer fraction :
  grouped integer = true -> decimal_digits fraction = true ->
  (negative = true -> minus_sign L = [45%N]) ->
  trim (format L negative integer fraction) = format L negative integer fraction.
Proof.
  intros G F Hm.
  assert (Hn : forall d, d < 10 -> isWhiteSpace (numeral_of L d) = false).
  { intros d Hd. apply (wf_numeral L WF). now apply numeral_of_In. }
  destruct (format_unsigned_last integer fraction G F) as (s & d & Hd & Es).
  destruct (format_unsigned_first integer fraction G) as (d0 & r & Hd0 & Ef).
  unfold format. destruct negative; [rewrite (Hm eq_refl)|]; cbn [app].
  - apply (trim_ends 45 (numeral_of L d) _ (45%N :: s));
      [now rewrite Es|reflexivity|now apply Hn].
  - rewrite Ef in Es |- *. apply (trim_ends _ _ _ _ Es); auto.
Qed.

(** The three replacements on the unsigned part of a formatted number. *)
Lemma clean_unsigned integer fraction :
  grouped integer = true -> decimal_digits fraction = true ->
  replace_all {| class := zero_to_nine L; global := true |}
    (RFunction (entries_from 0 (map (fun c => [c]) (zero_to_nine L))))
    (replace_first {| class := [decimal_glyph L]; global := false |}
       (RString (units "."))
       (replace_all {| class := [group_glyph L]; global := true |} (RString [])
          (format_unsigned L integer fraction)))
  = ascii_digits (List.concat integer) ++
    match fraction with
    | [] => []
    | _ => 46%N :: ascii_digits fraction
    end.
Proof.
  intros G F.
  pose proof (grouped_all_digits _ G) as AD.
  pose proof (all_digits_concat _ AD) as CD.
  destruct (wf_separators L WF) as (Sgd & _ & _).
  unfold format_unsigned. rewrite replace_all_app, strip_groups by exact AD.
  destruct fraction as [|f0 fr].
  - cbn [replace_all]. rewrite app_nil_r.
    rewrite (proj2 (numerals_survive _ _ _ decimal_misses_numerals CD)).
    now rewrite numerals_to_ascii, app_nil_r.
  - cbn [replace_all]. unfold matches at 1. cbn [class existsb].
    rewrite Sgd. cbn [orb app].
    rewrite (proj1 (numerals_survive _ _ _ group_misses_numerals F)).
    rewrite (replace_first_prefix _ _ _ _ _ decimal_misses_numerals CD)
      by (unfold matches; simpl; now rewrite N.eqb_refl).
    cbn [replace_with app]. rewrite replace_all_app.
    rewrite numerals_to_ascii by exact CD. f_equal.
    change (units ".") with [46%N]. cbn [app replace_all].
    rewrite point_is_no_numeral. cbn [app]. f_equal.
    now apply numerals_to_ascii.
Qed.

Lemma hyphen_is_no_glyph :
  matches {| class := [group_glyph L]; global := true |} 45%N = false
  /\ matches {| class := [decimal_glyph L]; global := false |} 45%N = false
  /\ matches {| class := zero_to_nine L; global := true |} 45%N = false.
Proof.
  destruct (wf_separators L WF) as (_ & Sg & Sd).
  unfold matches. cbn [class existsb]. rewrite Sg, Sd. repeat split.
  destruct (existsb (fun m => (m =? 45)%N) (zero_to_nine L)) eqn:E; [|reflexivity].
  apply existsb_exists in E. destruct E as (c & Hc & E).
  destruct (wf_numeral L WF c Hc) as (_ & _ & _ & X & _). congruence.
Qed.

(** The four cleaning steps turn a formatted number into its ASCII
    literal, when the minus sign of the locale is the hyphen-minus. *)
Lemma clean_format negative integer fraction :
  grouped integer = true -> decimal_digits fraction = true ->
  (negative = true -> minus_sign L = [45%N]) ->
  clean (descriptor_of L) (format L negative integer fraction)
  = (if negative then [45%N] else []) ++
    ascii_digits (List.concat integer) ++
    match fraction with
    | [] => []
    | _ => 46%N :: ascii_digits fraction
    end.
Proof.
  intros G F Hm. unfold clean. rewrite trim_format by assumption.
  cbn [descriptor_of group decimal numeral index replace global].
  destruct hyphen_is_no_glyph as (Hg & Hd & Hn).
  unfold format. destruct negative; [rewrite (Hm eq_refl)|]; cbn [app].
  - cbn [replace_all]. rewrite Hg. cbn [app replace_first]. rewrite Hd.
    cbn [replace_all]. rewrite Hn. cbn [app]. f_equal.
    now apply clean_unsigned.
  - now apply clean_unsigned.
Qed.

End Cleaning.

(** *** Rounding to doubles *)

Lemma round_half_even_whole (x : Z) : round_half_even x 1 = x.
Proof.
  unfold round_half_even. rewrite Z.div_1_r, Z.mod_1_r. reflexivity.
Qed.

Lemma floor_log2_whole (x : Z) : (0 < x)%Z -> floor_log2 x 1 = Z.log2 x.
Proof.
  intros Hx. unfold floor_log2. change (Z.log2 1) with 0%Z. rewrite Z.sub_0_r.
  pose proof (Z.log2_nonneg x) as L.
  rewrite Z.max_l by exact L. rewrite Z.max_r by lia.
  destruct (Z.log2_spec x Hx) as [Lo _].
  replace (1 * 2 ^ Z.log2 x <=? x * 2 ^ 0)%Z with true; [reflexivity|].
  symmetry. apply Z.leb_le. lia.
Qed.

Lemma dyadic_whole (negative : bool) (x k : Z) :
  (0 <= x)%Z -> (0 <= k)%Z ->
  dyadic negative (x * 2 ^ k) (- k) = Finite negative (Z.to_N x) 0.
Proof.
  intros Hx Hk. unfold dyadic. rewrite Z.opp_involutive.
  rewrite (Z.max_l k 0) by exact Hk. rewrite (Z.max_r (- k) 0) by lia.
  assert (P : (0 < 2 ^ k)%Z) by (apply Z.pow_pos_nonneg; lia).
  assert (G : Z.gcd (x * 2 ^ k) (2 ^ k) = (2 ^ k)%Z).
  { rewrite Z.gcd_comm, Z.mul_comm. apply Z.gcd_mul_diag_l. lia. }
  rewrite G, Z.log2_pow2 by exact Hk. rewrite Z.sub_diag.
  rewrite Z.div_mul by lia. simpl. now rewrite !Z.mul_1_r.
Qed.

(** The integers of the safe range are doubles: nothing is rounded. *)
Lemma Number_value_integer (negative : bool) (n : N) :
  (n <= MAX_SAFE_INTEGER)%N -> Number_value negative n 0 = Finite negative n 0.
Proof.
  unfold MAX_SAFE_INTEGER. intros Hn. unfold Number_value.
  destruct (n =? 0)%N eqn:E0; [apply N.eqb_eq in E0; now subst|].
  apply N.eqb_neq in E0.
  assert (Hx : (0 < Z.of_N n)%Z) by lia.
  change (Z.max 0 0) with 0%Z. change (Z.max (- 0) 0) with 0%Z.
  change (10 ^ 0)%Z with 1%Z. rewrite Z.mul_1_r.
  rewrite floor_log2_whole by exact Hx.
  assert (Hl : (0 <= Z.log2 (Z.of_N n) < 53)%Z).
  { split; [apply Z.log2_nonneg|]. apply Z.log2_lt_pow2; [exact Hx|].
    change (2 ^ 53)%Z with 9007199254740992%Z. lia. }
  rewrite (Z.max_l (Z.log2 (Z.of_N n) - 52) (-1074)) by lia.
  rewrite (Z.max_l (- (Z.log2 (Z.of_N n) - 52)) 0) by lia.
  rewrite (Z.max_r (Z.log2 (Z.of_N n) - 52) 0) by lia.
  change (2 ^ 0)%Z with 1%Z. rewrite round_half_even_whole, Z.mul_1_r.
  set (k := (- (Z.log2 (Z.of_N n) - 52))%Z).
  assert (Hk : (0 <= k <= 52)%Z) by (unfold k; lia).
  assert (Small : (Z.of_N n * 2 ^ k < 2 ^ 1024)%Z).
  { destruct (Z.log2_spec (Z.of_N n) Hx) as [_ Up].
    apply Z.lt_trans with (2 ^ 53)%Z; [|reflexivity].
    replace 53%Z with (Z.succ (Z.log2 (Z.of_N n)) + k)%Z by (unfold k; lia).
    rewrite Z.pow_add_r by lia.
    apply Z.mul_lt_mono_pos_r; [apply Z.pow_pos_nonneg; lia|exact Up]. }
  replace (2 ^ 1024 <=? Z.of_N n * 2 ^ k)%Z with false
    by (symmetry; apply Z.leb_gt; exact Small).
  replace (Z.log2 (Z.of_N n) - 52)%Z with (- k)%Z by (unfold k; lia).
  rewrite dyadic_whole by lia. now rewrite N2Z.id.
Qed.

(** Outside the safe range a decimal is rounded: 2^53 + 1 becomes 2^53 and
    2^53 + 3 becomes 2^53 + 4 (ties go to the even significand); a tenth
    becomes the double next to it; 10^23 is not a double;
    1.7976931348623159e308 and 10^400 overflow to Infinity, and 10^-400
    underflows to zero. *)
Lemma Number_value_rounds :
  Number_value false 9007199254740993 0 = Finite false 9007199254740992 0
  /\ Number_value false 9007199254740995 0 = Finite false 9007199254740996 0
  /\ Number_value false 1 (-1)
     = Finite false 1000000000000000055511151231257827021181583404541015625 (-55)
  /\ Number_value false 1 23 = Finite false 99999999999999991611392 0
  /\ Number_value false 17976931348623159 292 = Infinity false
  /\ Number_value false 1 400 = Infinity false
  /\ Number_value true 1 (-400) = Finite true 0 0.
Proof. vm_compute. repeat split. Qed.

(** [parse] rounds with it: under en-US the digits of 2^53 + 1 parse to
    2^53. *)
Lemma parse_rounds_to_doubles :
  parse (numberData (renders sample_intl ["en-US"]%string))
        (units "9,007,199,254,740,993")
  = Finite false 9007199254740992 0.
Proof. vm_compute. reflexivity. Qed.

(** *** ToNumber on ASCII digits *)

Lemma digit_value_digit_unit d :
  d < 10 -> digit_value 10 (digit_unit d) = Some (N.of_nat d).
Proof.
  intros Hd. do 10 (destruct d as [|d]; [reflexivity|]). exfalso. lia.
Qed.

Lemma digit_unit_no_white_space d : d < 10 -> isWhiteSpace (digit_unit d) = false.
Proof.
  intros Hd. do 10 (destruct d as [|d]; [reflexivity|]). exfalso. lia.
Qed.

Lemma digits_ascii (ds : list nat) (tail : jsstring) :
  decimal_digits ds = true ->
  digits 10 tail = ([], tail) ->
  digits 10 (ascii_digits ds ++ tail) = (map N.of_nat ds, tail).
Proof.
  intros E Ht. induction ds as [|d ds IH]; [exact Ht|].
  simpl in E. apply andb_prop in E. destruct E as [Ed Eds].
  apply Nat.ltb_lt in Ed. cbn [ascii_digits map app digits].
  rewrite digit_value_digit_unit by exact Ed.
  unfold ascii_digits in IH. now rewrite IH.
Qed.

(** A literal that starts with a decimal digit followed by a digit, a
    point or nothing is not a hexadecimal, octal or binary literal, has no
    sign and is not Infinity. *)
Lemma leading_digit d (rest : jsstring) :
  d < 10 ->
  (match rest with
   | [] => True
   | c :: _ => (exists d', d' < 10 /\ c = digit_unit d') \/ c = 46%N
   end) ->
  NonDecimalIntegerLiteral (digit_unit d :: rest) = None
  /\ sign (digit_unit d :: rest) = (false, digit_unit d :: rest)
  /\ jsstring_eqb (digit_unit d :: rest) (units "Infinity") = false.
Proof.
  intros Hd Hr. repeat split.
  - destruct rest as [|c r].
    + do 10 (destruct d as [|d]; [reflexivity|]). exfalso. lia.
    + assert (Hc : ((c =? 120) || (c =? 88) = false
                    /\ (c =? 111) || (c =? 79) = false
                    /\ (c =? 98) || (c =? 66) = false)%N).
      { destruct Hr as [(d' & Hd' & ->)| ->]; [|repeat split; reflexivity].
        unfold digit_unit.
        repeat split; apply orb_false_intro; apply N.eqb_neq; lia. }
      destruct Hc as (H1 & H2 & H3).
      destruct d as [|d].
      * change (digit_unit 0) with 48%N.
        cbv beta iota delta [NonDecimalIntegerLiteral].
        rewrite H1, H2, H3. reflexivity.
      * do 9 (destruct d as [|d]; [reflexivity|]). exfalso. lia.
  - do 10 (destruct d as [|d]; [reflexivity|]). exfalso. lia.
  - do 10 (destruct d as [|d]; [reflexivity|]). exfalso. lia.
Qed.

Lemma ToNumber_decimal (negative : bool) (ip fp : list nat) :
  ip <> [] -> decimal_digits ip = true -> decimal_digits fp = true ->
  ToNumber ((if negative then [45%N] else []) ++
            ascii_digits ip ++
            match fp with
            | [] => []
            | _ => 46%N :: ascii_digits fp
            end)
  = Number_value negative (to_N 10 (map N.of_nat (ip ++ fp)))
                 (- Z.of_nat (List.length fp)).
Proof.
  intros Hne Ei Ef.
  set (t := ascii_digits ip ++ _).
  assert (Hws : forallb (fun c => negb (isWhiteSpace c)) t = true).
  { unfold t. rewrite forallb_app. apply andb_true_intro. split.
    - apply forallb_forall. intros c Hc. apply in_map_iff in Hc.
      destruct Hc as (d & <- & Hd). apply negb_true_iff, digit_unit_no_white_space.
      now apply (decimal_digits_In ip).
    - destruct fp as [|f0 fr]; [reflexivity|]. cbn [forallb].
      apply andb_true_intro. split; [reflexivity|].
      apply forallb_forall. intros c Hc. apply in_map_iff in Hc.
      destruct Hc as (d & <- & Hd). apply negb_true_iff, digit_unit_no_white_space.
      now apply (decimal_digits_In (f0 :: fr)). }
  destruct ip as [|d0 ip']; [congruence|].
  assert (Hd0 : d0 < 10) by (apply (decimal_digits_In (d0 :: ip')); [exact Ei|now left]).
  assert (Lead : NonDecimalIntegerLiteral t = None
                 /\ sign t = (false, t)
                 /\ jsstring_eqb t (units "Infinity") = false).
  { unfold t. cbn [ascii_digits map app]. apply leading_digit; [exact Hd0|].
    destruct ip' as [|d1 ip''].
    - destruct fp; [exact I|now right].
    - left. exists d1. split; [|reflexivity].
      apply (decimal_digits_In (d0 :: d1 :: ip'')); [exact Ei|right; now left]. }
  destruct Lead as (ND & Sg & Inf).
  assert (Lit : StrUnsignedDecimalLiteral negative t
                = Number_value negative
                    (to_N 10 (map N.of_nat ((d0 :: ip') ++ fp)))
                    (- Z.of_nat (List.length fp))).
  { unfold StrUnsignedDecimalLiteral. rewrite Inf. unfold t.
    destruct fp as [|f0 fr].
    - rewrite digits_ascii by (auto; reflexivity).
      cbn [map ExponentPart List.length]. rewrite !app_nil_r. reflexivity.
    - rewrite digits_ascii by (auto; reflexivity).
      rewrite <- (app_nil_r (ascii_digits (f0 :: fr))).
      rewrite digits_ascii by (auto; reflexivity).
      rewrite length_map, map_app. reflexivity. }
  assert (Ht : exists c r, t = c :: r) by (unfold t; simpl; eauto).
  destruct Ht as (c & r & Ht).
  rewrite <- Lit. clear Lit. unfold ToNumber. destruct negative; cbn [app].
  - rewrite trim_no_white_space by (cbn [forallb]; now rewrite Hws).
    rewrite Ht. reflexivity.
  - rewrite trim_no_white_space by exact Hws.
    rewrite Ht in *. now rewrite ND, Sg.
Qed.

(** C5, as the code has it.  For a locale whose ten numerals and two
    separators are single UTF-16 code units (the numerals distinct, the
    separators different from each other and from the numerals, no glyph
    the hyphen-minus or special in a character class) and which writes the
    ASCII hyphen-minus in front of a negative value, a value within the
    safe numeric range written with these glyphs (any grouping of the
    integer digits, an optional fraction) parses to the Number it denotes:
    the double nearest to the decimal, which for an integer is the integer
    itself. *)
Theorem parse_format_round_trip (L : glyphs) (loc : string) (negative : bool)
    (integer : list (list nat)) (fraction : list nat) :
  well_formed L = true ->
  grouped integer = true ->
  decimal_digits fraction = true ->
  (negative = true -> minus_sign L = [45%N]) ->
  in_safe_range integer = true ->
  parse (numberData (renders (fun _ => NumberFormat_of L) [loc]))
        (format L negative integer fraction)
  = denoted negative integer fraction
  /\ (fraction = [] ->
      parse (numberData (renders (fun _ => NumberFormat_of L) [loc]))
            (format L negative integer fraction)
      = Finite negative (to_N 10 (map N.of_nat (List.concat integer))) 0).
Proof.
  intros WF G F Hm Safe.
  pose proof (grouped_all_digits _ G) as AD.
  pose proof (all_digits_concat _ AD) as CD.
  assert (Hne : List.concat integer <> []).
  { unfold grouped in G. destruct integer as [|a r]; [discriminate|].
    cbn [forallb] in G. apply andb_prop in G. destruct G as [Ga _].
    destruct a; [discriminate|]. discriminate. }
  assert (P : parse (numberData (renders (fun _ => NumberFormat_of L) [loc]))
                    (format L negative integer fraction)
              = denoted negative integer fraction).
  { rewrite derive_well_formed by exact WF.
    unfold parse. rewrite (clean_format L WF) by assumption.
    unfold denoted.
    rewrite <- (ToNumber_decimal negative (List.concat integer) fraction Hne CD F).
    destruct negative; [reflexivity|].
    destruct (List.concat integer) as [|d0 ds]; [congruence|reflexivity]. }
  split; [exact P|].
  intros ->. rewrite P. unfold denoted. rewrite app_nil_r. cbn [List.length].
  apply Number_value_integer. apply N.leb_le. exact Safe.
Qed.

(** The round trip at a Thai sample, -12,345.67 in Thai digits: the result
    is the double nearest to -12345.67. *)
Lemma round_trip_thai :
  parse (numberData (renders (fun _ => NumberFormat_of thai) ["th-TH-u-nu-thai"%string]))
        (format thai true [[1; 2]; [3; 4; 5]] [6; 7])
  = Finite true 12345670000000000072759576141834259033203125 (-39).
Proof.
  refine (eq_trans
            (proj1 (parse_format_round_trip thai "th-TH-u-nu-thai" true
                      [[1; 2]; [3; 4; 5]] [6; 7] _ _ _ _ _)) _).
  - reflexivity.
  - reflexivity.
  - reflexivity.
  - intros _. reflexivity.
  - reflexivity.
  - vm_compute. reflexivity.
Defined.

(** Arabic-Indic digits: 12,345 parses to 12345, and the negative -5,
    which the locale writes with the Arabic letter mark in front of the
    hyphen-minus, parses to NaN. *)
Lemma round_trip_arabic :
  parse (numberData (renders (fun _ => NumberFormat_of arabic) ["ar-EG"%string]))
        (format arabic false [[1; 2]; [3; 4; 5]] [])
  = Finite false 12345 0
  /\ parse (numberData (renders (fun _ => NumberFormat_of arabic) ["ar-EG"%string]))
           (format arabic true [[5]] [])
     = NaN.
Proof. vm_compute. split; reflexivity. Qed.

(** C5, refuted as stated.  Only numerals, group separator and decimal
    separator are translated: the Swedish minus sign U+2212 reaches the
    numeric coercion untouched and -5 parses to NaN; and the numerals of
    the numbering system mathsans, which are surrogate pairs, parse to
    NaN too. *)
Lemma round_trip_fails_for_other_glyphs :
  same_number (parse (numberData (renders sample_intl ["sv-SE"]%string))
                     sv_SE_minus_5)
              (Finite true 5 0) = false
  /\ same_number
       (parse (numberData (renders sample_intl ["en-u-nu-mathsans"]%string))
              (mathsans 1 ++ mathsans 2))
       (Finite false 12 0) = false.
Proof. vm_compute. split; reflexivity. Qed.

(** Under a numbering system outside the Basic Multilingual Plane the
    Map is keyed by code points while the class of the RegExp (built
    without the [u] flag) matches single code units: every surrogate of
    the formatted 12 is looked up on its own, is not found, and is replaced
    by "undefined", so that [parse] returns NaN. *)
Lemma astral_numerals_do_not_round_trip :
  let d := numberData (renders sample_intl ["en-u-nu-mathsans"]%string) in
  clean d (mathsans 1 ++ mathsans 2)
  = units "undefinedundefinedundefinedundefined"
  /\ parse d (mathsans 1 ++ mathsans 2) = NaN
  /\ same_number (parse d (mathsans 1 ++ mathsans 2)) (Finite false 12 0) = false.
Proof. vm_compute. repeat split. Qed.

(** Three spaces under en-US. *)
Lemma blank_input_witness :
  parse (numberData (renders sample_intl ["en-US"]%string)) (units "   ") = NaN.
Proof.
  apply (proj1 (blank_input_parses_to_NaN
                  (numberData (renders sample_intl ["en-US"]%string))
                  (units "   "))).
  reflexivity.
Defined.

End NumberParserFacts.

(** * Further properties of useSpinButton *)

Module SpinButtonMore.
Import SpinButton SpinButtonFacts.

Section Keys.
Context {V : Type} `{JSValue V}.
Implicit Types (p : SpinButtonProps V) (w : world V) (e : KeyboardEvent).

(** The outcomes of [onKeyDown]: nothing, one guarded or supplied callback
    after [preventDefault], or the unguarded call of an absent
    [onValidate]. *)
Lemma onKeyDown_cases p e w :
  onKeyDown p e w = (Returned tt, w)
  \/ (exists c, supplied p c = true
                /\ onKeyDown p e w
                   = (Returned tt, logged [PreventDefault; Call c] w))
  \/ (onValidate p = false /\ key e = "Enter"%string
      /\ onKeyDown p e w = (Threw TypeError, logged [PreventDefault] w)).
Proof.
  assert (G : forall (c : callback),
             (if supplied p c then emit PreventDefault ;; call (supplied p c) c
              else ret tt) w = (Returned tt, w)
             \/ (exists c', supplied p c' = true /\
                   (if supplied p c then emit PreventDefault ;; call (supplied p c) c
                    else ret tt) w
                   = (Returned tt, logged [PreventDefault; Call c'] w))).
  { intros c. rewrite guarded_branch. destruct (supplied p c) eqn:E; [|now left].
    right. now exists c. }
  unfold onKeyDown.
  destruct (anyModifier e || isReadOnly p); [now left|].
  destruct (key e =? "Enter")%string eqn:K.
  { apply String.eqb_eq in K. destruct (onValidate p) eqn:E.
    - right. left. exists OnValidate. split; [exact E|apply prevent_then_call].
    - right. right. repeat split; auto. }
  destruct (key e =? "PageUp")%string.
  { destruct (onIncrementPage p) eqn:E.
    - right. left. exists OnIncrementPage. split; [exact E|apply prevent_then_call].
    - destruct (G OnIncrement) as [X|X]; [left|right; left]; exact X. }
  destruct ((key e =? "ArrowUp") || (key e =? "Up"))%string.
  { destruct (G OnIncrement) as [X|X]; [left|right; left]; exact X. }
  destruct (key e =? "PageDown")%string.
  { destruct (onDecrementPage p) eqn:E.
    - right. left. exists OnDecrementPage. split; [exact E|apply prevent_then_call].
    - destruct (G OnDecrement) as [X|X]; [left|right; left]; exact X. }
  destruct ((key e =? "ArrowDown") || (key e =? "Down"))%string.
  { destruct (G OnDecrement) as [X|X]; [left|right; left]; exact X. }
  destruct (key e =? "Home")%string.
  { destruct (minValue p); [|now left].
    destruct (G OnDecrementToMin) as [X|X]; [left|right; left]; exact X. }
  destruct (key e =? "End")%string; [|now left].
  destruct (maxValue p); [|now left].
  destruct (G OnIncrementToMax) as [X|X]; [left|right; left]; exact X.
Qed.

Lemma unknown_key_eqb e :
  ~ In (key e) dispatched_keys ->
  (key e =? "Enter")%string = false /\ (key e =? "PageUp")%string = false
  /\ (key e =? "ArrowUp")%string = false /\ (key e =? "Up")%string = false
  /\ (key e =? "PageDown")%string = false /\ (key e =? "ArrowDown")%string = false
  /\ (key e =? "Down")%string = false /\ (key e =? "Home")%string = false
  /\ (key e =? "End")%string = false.
Proof.
  intros N. repeat split; apply String.eqb_neq; intros E; apply N;
    rewrite E; simpl; tauto.
Qed.

(** X2. A key-down with a modifier held, on a read-only control, or of a
    key the switch has no case for, leaves the whole state as it was:
    nothing is called and the default is not prevented. *)
Theorem ignored_keys_change_nothing w e :
  anyModifier e = true \/ isReadOnly (props w) = true
  \/ ~ In (key e) dispatched_keys ->
  step w (KeyDown e) = w.
Proof.
  intros C. simpl. unfold dispatch.
  assert (E : onKeyDown (props w) e w = (Returned tt, w)).
  { destruct C as [C|[C|C]].
    - apply onKeyDown_ignored. now rewrite C.
    - apply onKeyDown_ignored. rewrite C. apply orb_true_r.
    - unfold onKeyDown.
      destruct (unknown_key_eqb e C) as (K1 & K2 & K3 & K4 & K5 & K6 & K7 & K8 & K9).
      rewrite K1, K2, K3, K4, K5, K6, K7, K8, K9. simpl.
      now destruct (anyModifier e || isReadOnly (props w)). }
  now rewrite E.
Qed.

(** X3. With no modifier on a control that is not read-only: ArrowUp and
    its legacy name Up call [onIncrement] once if it is supplied, ArrowDown
    and Down call [onDecrement]; Home calls [onDecrementToMin] only when
    [minValue] is defined and the callback supplied, End calls
    [onIncrementToMax] only when [maxValue] is defined and the callback
    supplied; otherwise the key changes nothing. *)
Theorem arrows_home_and_end p e w :
  anyModifier e = false ->
  isReadOnly p = false ->
  (key e = "ArrowUp"%string \/ key e = "Up"%string ->
   onKeyDown p e w
   = (Returned tt,
      if onIncrement p then logged [PreventDefault; Call OnIncrement] w else w))
  /\ (key e = "ArrowDown"%string \/ key e = "Down"%string ->
      onKeyDown p e w
      = (Returned tt,
         if onDecrement p then logged [PreventDefault; Call OnDecrement] w else w))
  /\ (key e = "Home"%string ->
      onKeyDown p e w
      = (Returned tt,
         match minValue p with
         | Some _ =>
             if onDecrementToMin p
             then logged [PreventDefault; Call OnDecrementToMin] w else w
         | None => w
         end))
  /\ (key e = "End"%string ->
      onKeyDown p e w
      = (Returned tt,
         match maxValue p with
         | Some _ =>
             if onIncrementToMax p
             then logged [PreventDefault; Call OnIncrementToMax] w else w
         | None => w
         end)).
Proof.
  intros Hm Hr. repeat split.
  - intros [K|K]; unfold onKeyDown; rewrite Hm, Hr, K; cbn -[emit call logged];
      apply guarded_branch.
  - intros [K|K]; unfold onKeyDown; rewrite Hm, Hr, K; cbn -[emit call logged];
      apply guarded_branch.
  - intros K. unfold onKeyDown. rewrite Hm, Hr, K. cbn -[emit call logged].
    destruct (minValue p); [apply guarded_branch|reflexivity].
  - intros K. unfold onKeyDown. rewrite Hm, Hr, K. cbn -[emit call logged].
    destruct (maxValue p); [apply guarded_branch|reflexivity].
Qed.

End Keys.

Section Timers.
Context {V : Type} `{JSValue V}.
Implicit Types (p : SpinButtonProps V) (w : world V) (t : timer V).

(** What a timer that fires does to the world. *)
Lemma fire_cases t w :
  fire t w = w
  \/ (step_present (spin t) (closure t) = true
      /\ fire t w = armed (spin t) (closure t) (repeat_interval (spin t))
                          (remove_timer (handle t) w))
  \/ (step_present (spin t) (closure t) = false
      /\ fire t w = logged [Uncaught TypeError] (remove_timer (handle t) w)).
Proof.
  unfold fire. destruct (is_pending (handle t) w) eqn:P; [|now left].
  rewrite timer_callback_pressStart. unfold dispatch.
  destruct (step_present (spin t) (closure t)) eqn:E.
  - right. left. split; [reflexivity|]. now rewrite pressStart_present.
  - right. right. split; [reflexivity|]. now rewrite pressStart_absent.
Qed.

(** A property of worlds kept by the clock and by each firing timer is kept
    by the passage of time; [R] is what the property tells of every pending
    timer. *)
Lemma tick_keeps (Q : world V -> Prop) (R : timer V -> Prop) :
  (forall w, Q w -> Q (advance_clock w)) ->
  (forall w t, Q w -> In t (timers w) -> R t) ->
  (forall t w, R t -> Q w -> Q (fire t w)) ->
  forall w, Q w -> Q (tick w).
Proof.
  intros Hc Hr Hf w Hw. unfold tick.
  assert (Hl : forall t,
             In t (filter (fun t => due t <=? now (advance_clock w))
                          (timers (advance_clock w))) -> R t).
  { intros t Ht. apply filter_In in Ht. destruct Ht as [Ht _].
    exact (Hr _ t (Hc w Hw) Ht). }
  revert Hl.
  generalize (filter (fun t => due t <=? now (advance_clock w))
                     (timers (advance_clock w))).
  intros l. generalize (Hc w Hw). generalize (advance_clock w).
  induction l as [|t l IH]; intros acc Ha Hl; simpl; [exact Ha|].
  apply IH.
  - apply Hf; [apply Hl; now left|exact Ha].
  - intros t' Ht'. apply Hl. now right.
Qed.

Lemma elapse_keeps (Q : world V -> Prop) (R : timer V -> Prop) :
  (forall w, Q w -> Q (advance_clock w)) ->
  (forall w t, Q w -> In t (timers w) -> R t) ->
  (forall t w, R t -> Q w -> Q (fire t w)) ->
  forall ms w, Q w -> Q (elapse ms w).
Proof.
  intros Hc Hr Hf ms. induction ms as [|n IH]; intros w Hw; simpl; [exact Hw|].
  apply IH. now apply (tick_keeps Q R).
Qed.

Lemma healthy_remove h w : healthy w -> healthy (remove_timer h w).
Proof.
  intros F t Ht. simpl in Ht. apply filter_In in Ht. now apply F.
Qed.

Lemma healthy_armed d p delay w :
  step_present d p = true -> healthy w -> healthy (armed d p delay w).
Proof.
  intros E F t Ht. simpl in Ht. apply in_app_or in Ht. simpl.
  destruct Ht as [Ht|[<-|[]]].
  - destruct (F t Ht). split; [lia|assumption].
  - simpl. split; [lia|exact E].
Qed.

Lemma healthy_fire t w : healthy w -> healthy (fire t w).
Proof.
  intros F. destruct (fire_cases t w) as [->|[(E & ->)|(E & ->)]].
  - exact F.
  - apply healthy_armed; [exact E|now apply healthy_remove].
  - now apply healthy_remove.
Qed.

Lemma healthy_elapse ms w : healthy w -> healthy (elapse ms w).
Proof.
  apply (elapse_keeps healthy (fun _ => True));
    [intros w' F; exact F|trivial|intros; now apply healthy_fire].
Qed.

Lemma timer_state_quiet w ev :
  match ev with
  | PressStart _ | PressEnd _ | Elapse _ => True
  | _ => timer_state (step w ev) = timer_state w
  end.
Proof.
  destruct ev as [e|i| |q|d|d|ms|]; try exact I.
  - simpl. unfold dispatch.
    destruct (onKeyDown_logs (props w) e w) as (c & l & ->).
    destruct c; reflexivity.
  - destruct i; reflexivity.
  - simpl. unfold dispatch, onBlur, bind, call.
    destruct (onValidate (props w)); reflexivity.
  - simpl. unfold dispatch, render, bind, gets, announce_effect.
    cbn -[deps_changed].
    destruct (deps_changed _ _); [|reflexivity].
    cbn. destruct (isFocused w); reflexivity.
  - reflexivity.
Qed.

Lemma healthy_timer_state w w' :
  timer_state w' = timer_state w -> healthy w -> healthy w'.
Proof.
  unfold timer_state, healthy. intros E F. injection E as _ En Et _.
  rewrite Et, En. exact F.
Qed.

Lemma healthy_step w ev : healthy w -> healthy (step w ev).
Proof.
  intros F. pose proof (timer_state_quiet w ev) as Q.
  destruct ev as [e|i| |q|d|d|ms|];
    try (now apply (healthy_timer_state w _ Q)).
  - destruct (step_present d (props w)) eqn:E.
    + rewrite step_PressStart_present by exact E. now apply healthy_armed.
    + rewrite step_PressStart_absent by exact E. exact F.
  - assert (E : step w (PressEnd d) = dispatch onIncrementPressEnd w)
      by now destruct d.
    rewrite E. unfold dispatch, onIncrementPressEnd, bind, gets.
    destruct (_async w) as [h|]; [|exact F].
    exact (healthy_remove h w F).
  - now apply healthy_elapse.
Qed.

Lemma healthy_run tr : forall w, healthy w -> healthy (run w tr).
Proof.
  induction tr as [|ev tr IH]; intros w F; [exact F|].
  apply (IH (step w ev)). now apply healthy_step.
Qed.

Lemma healthy_mount p : healthy (mount p).
Proof. intros t []. Qed.

Lemma filter_older (l : list (timer V)) (h : nat) :
  (forall t, In t l -> handle t < h) ->
  filter (fun t => negb (handle t =? h)) l = l.
Proof.
  induction l as [|a l IH]; intros F; simpl; [reflexivity|].
  assert (E : (handle a =? h) = false).
  { apply Nat.eqb_neq. specialize (F a (or_introl eq_refl)). lia. }
  rewrite E. simpl. f_equal. apply IH. intros t Ht. apply F. now right.
Qed.

(** X10. Whatever happened before, a press that starts (with its step
    callback supplied) and then ends leaves every timer that was pending
    before it still pending: the press-start overwrites the handle and
    the press-end clears only the timer this press armed. *)
Theorem earlier_timers_survive_a_press p tr d d' :
  step_present d (props (run (mount p) tr)) = true ->
  timers (run (run (mount p) tr) [PressStart d; PressEnd d'])
  = timers (run (mount p) tr).
Proof.
  intros E. set (w := run (mount p) tr) in *.
  assert (F : healthy w) by (apply healthy_run, healthy_mount).
  unfold run. cbn [fold_left].
  rewrite step_PressStart_present by exact E.
  assert (X : step (armed d (props w) 400 w) (PressEnd d')
              = dispatch onIncrementPressEnd (armed d (props w) 400 w))
    by now destruct d'.
  rewrite X. unfold dispatch, onIncrementPressEnd, bind, gets. simpl.
  rewrite filter_app. simpl. rewrite Nat.eqb_refl. simpl.
  rewrite app_nil_r. apply filter_older. intros t Ht. now apply F.
Qed.

Lemma forallb_step_call_app (a b : list effect) :
  forallb step_call a = true -> forallb step_call b = true ->
  forallb step_call (a ++ b) = true.
Proof. intros A B. now rewrite forallb_app, A, B. Qed.

(** X9. After any sequence of events, the passage of time only adds calls
    of the two step callbacks to the log: a timer never raises, never
    announces and never calls another callback. *)
Theorem time_only_calls_step_callbacks p tr ms :
  exists l,
    log (elapse ms (run (mount p) tr)) = log (run (mount p) tr) ++ l
    /\ forallb step_call l = true.
Proof.
  set (w := run (mount p) tr).
  assert (F : healthy w) by (apply healthy_run, healthy_mount).
  assert (Q : healthy (elapse ms w)
              /\ exists l, log (elapse ms w) = log w ++ l
                           /\ forallb step_call l = true).
  { apply (elapse_keeps
             (fun w' => healthy w' /\
                exists l, log w' = log w ++ l /\ forallb step_call l = true)
             (fun t => step_present (spin t) (closure t) = true)).
    - intros w' X. exact X.
    - intros w' t (F' & _) Ht. now apply F'.
    - intros t w' P (F' & l & El & Sl). split; [now apply healthy_fire|].
      destruct (fire_cases t w') as [->|[(_ & ->)|(E & _)]].
      + now exists l.
      + exists (l ++ [Call (step_callback (spin t))]). split.
        * simpl. rewrite El. now rewrite app_assoc.
        * apply forallb_step_call_app; [exact Sl|]. now destruct (spin t).
      + congruence.
    - split; [exact F|]. exists []. split; [now rewrite app_nil_r|reflexivity]. }
  exact (proj2 Q).
Qed.

End Timers.

Section Cadence.
Context {V : Type} `{JSValue V}.
Implicit Types (p : SpinButtonProps V) (w : world V) (t : timer V).

Lemma elapse_add a b w : elapse (a + b) w = elapse b (elapse a w).
Proof. revert w. induction a as [|a IH]; intros w; simpl; [reflexivity|apply IH]. Qed.

Lemma hold_until_fire d p r w :
  step_present d p = true ->
  holding d p (now w + S r) w ->
  holding d p (now w + S r + repeat_interval d) (elapse (S r) w)
  /\ now (elapse (S r) w) = now w + S r
  /\ log (elapse (S r) w) = log w ++ [Call (step_callback d)].
Proof.
  intros E (t & T & Sd & Cp & Dt).
  assert (X : elapse (S r) w
              = armed d p (repeat_interval d)
                  (remove_timer (handle t)
                     (advance_clock (at_time (now w + r) w)))).
  { replace (S r) with (r + 1) by lia. rewrite elapse_add.
    rewrite (elapse_quiet r) by (rewrite T; intros t' [<-|[]]; lia).
    cbn [elapse]. unfold tick.
    cbn [advance_clock at_time timers now]. rewrite T. cbn [filter].
    replace (due t <=? S (now w + r)) with true
      by (symmetry; apply Nat.leb_le; lia).
    cbn [fold_left].
    rewrite fire_present;
      [now rewrite Sd, Cp
      |unfold is_pending; simpl; rewrite T; simpl; now rewrite Nat.eqb_refl
      |rewrite Sd, Cp; exact E]. }
  rewrite X. unfold holding. simpl. rewrite T. simpl.
  rewrite Nat.eqb_refl. simpl.
  split; [|split; [lia|reflexivity]].
  eexists. split; [reflexivity|]. simpl. repeat split. lia.
Qed.

Lemma repeat_interval_pos d : exists i, repeat_interval d = S i.
Proof. destruct d; eexists; reflexivity. Qed.

Lemma hold_periods d p k :
  step_present d p = true ->
  forall w,
    holding d p (now w + repeat_interval d) w ->
    holding d p (now w + k * repeat_interval d + repeat_interval d)
            (elapse (k * repeat_interval d) w)
    /\ now (elapse (k * repeat_interval d) w) = now w + k * repeat_interval d
    /\ log (elapse (k * repeat_interval d) w)
       = log w ++ repeat (Call (step_callback d)) k.
Proof.
  intros E. destruct (repeat_interval_pos d) as (i & Ei).
  induction k as [|k IH]; intros w Hw.
  - cbn [Nat.mul elapse repeat]. rewrite Nat.add_0_r, app_nil_r. auto.
  - cbn [Nat.mul]. rewrite elapse_add.
    rewrite Ei in Hw.
    destruct (hold_until_fire d p i w E Hw) as (H1 & H2 & H3).
    rewrite <- Ei in *.
    destruct (IH (elapse (repeat_interval d) w)) as (K1 & K2 & K3).
    { now rewrite H2. }
    rewrite H2 in K1, K2. rewrite H3 in K3.
    repeat split.
    + replace (now w + (repeat_interval d + k * repeat_interval d)
               + repeat_interval d)
        with (now w + repeat_interval d + k * repeat_interval d
              + repeat_interval d) by lia.
      exact K1.
    + rewrite K2. lia.
    + rewrite K3, <- app_assoc. reflexivity.
Qed.

(** A held press from its first timer on: the timer fires after its
    delay and then once in every repeat interval. *)
Lemma held_cadence d p delay k r w :
  step_present d p = true ->
  holding d p (now w + S delay) w ->
  r < repeat_interval d ->
  log (elapse (S delay + k * repeat_interval d + r) w)
  = log w ++ repeat (Call (step_callback d)) (k + 1).
Proof.
  intros E H1 Hr.
  destruct (hold_until_fire d p delay w E H1) as (A1 & A2 & A3).
  rewrite <- Nat.add_assoc, elapse_add. set (w2 := elapse (S delay) w) in *.
  rewrite elapse_add.
  assert (H2 : holding d p (now w2 + repeat_interval d) w2) by now rewrite A2.
  destruct (hold_periods d p k E w2 H2) as (B1 & B2 & B3).
  set (w3 := elapse (k * repeat_interval d) w2) in *.
  destruct B1 as (t & T & _ & _ & Dt).
  rewrite elapse_quiet by (rewrite T; intros t' [<-|[]]; lia).
  cbn [at_time log]. rewrite B3, A3, <- app_assoc.
  rewrite Nat.add_comm. reflexivity.
Qed.

Lemma armed_holding d p delay w :
  timers w = [] -> holding d p (now w + delay) (armed d p delay w).
Proof. intros T. eexists. simpl. rewrite T. repeat split. Qed.

(** X6. A press that starts when no timer is pending, with its step
    callback supplied: held for less than 400 ms it has called the step
    callback once; held for 400 ms plus [k] whole repeat intervals (60 ms
    for increment, 75 ms for decrement) and a rest shorter than one
    interval, it has called it [k + 2] times and nothing else. *)
Theorem repeat_cadence d w :
  timers w = [] ->
  step_present d (props w) = true ->
  (forall ms,
     ms < 400 ->
     log (run w [PressStart d; Elapse ms]) = log w ++ [Call (step_callback d)])
  /\ (forall k r,
        r < repeat_interval d ->
        log (run w [PressStart d; Elapse (400 + k * repeat_interval d + r)])
        = log w ++ repeat (Call (step_callback d)) (k + 2)).
Proof.
  intros T E.
  assert (W1 : step w (PressStart d) = armed d (props w) 400 w)
    by now rewrite step_PressStart_present.
  split.
  - intros ms Ht. unfold run. cbn [fold_left]. rewrite W1. cbn [step].
    rewrite elapse_quiet; [reflexivity|].
    intros t' Ht'. simpl in Ht'. rewrite T in Ht'.
    destruct Ht' as [<-|[]]. simpl. lia.
  - intros k r Hr. unfold run. cbn [fold_left]. rewrite W1. cbn [step].
    change 400 with (S 399) at 1.
    rewrite (held_cadence d (props w) 399 k r _ E
               (armed_holding d (props w) 400 w T) Hr).
    cbn [armed log]. rewrite <- app_assoc, (Nat.add_comm k 2).
    rewrite (Nat.add_comm k 1). reflexivity.
Qed.

(** X18. The timer calls the callbacks of the render in which the press
    started: a render while the button is held, whatever its props (even
    props without the step callback), does not change the repeat, which
    adds [k + 1] calls in 400 ms, [k] repeat intervals and a rest. *)
Theorem render_does_not_change_a_running_repeat d w q :
  timers w = [] ->
  step_present d (props w) = true ->
  forall k r,
    r < repeat_interval d ->
    log (run w [PressStart d; Render q;
                Elapse (400 + k * repeat_interval d + r)])
    = log (run w [PressStart d; Render q])
      ++ repeat (Call (step_callback d)) (k + 1).
Proof.
  intros T E k r Hr. unfold run. cbn [fold_left].
  rewrite step_PressStart_present by exact E.
  set (w1 := armed d (props w) 400 w).
  assert (Q : timer_state (step w1 (Render q)) = timer_state w1)
    by exact (timer_state_quiet w1 (Render q)).
  set (w2 := step w1 (Render q)) in *.
  unfold timer_state in Q. injection Q as Qn _ Qt _.
  change (step w2 (Elapse (400 + k * repeat_interval d + r)))
    with (elapse (S 399 + k * repeat_interval d + r) w2).
  apply (held_cadence d (props w) 399 k r w2 E); [|exact Hr].
  destruct (armed_holding d (props w) 400 w T) as (t & Tt & X).
  exists t. fold w1 in Tt. rewrite Qt, Qn. split; [exact Tt|exact X].
Qed.

End Cadence.

Section More.
Context {V : Type} `{JSValue V}.
Implicit Types (p : SpinButtonProps V) (w : world V) (t : timer V).

(** X1. One key-down takes at most one action: either the state is left
    as it was, or [preventDefault] is called and then one callback that the
    host supplied, or (Enter without [onValidate]) [preventDefault] is
    called and the call of the absent callback raises.  Nothing else in
    the state changes. *)
Theorem key_down_takes_at_most_one_action w e :
  step w (KeyDown e) = w
  \/ (exists c, supplied (props w) c = true
                /\ step w (KeyDown e) = logged [PreventDefault; Call c] w)
  \/ (onValidate (props w) = false /\ key e = "Enter"%string
      /\ step w (KeyDown e) = logged [PreventDefault; Uncaught TypeError] w).
Proof.
  simpl. unfold dispatch.
  destruct (onKeyDown_cases (props w) e w)
    as [E|[(c & S & E)|(N & K & E)]]; rewrite E.
  - now left.
  - right. left. now exists c.
  - right. right. split; [exact N|]. split; [exact K|].
    unfold logged. simpl. now rewrite <- app_assoc.
Qed.


Lemma press_end_world d w :
  step w (PressEnd d)
  = match _async w with
    | Some h => remove_timer h w
    | None => w
    end.
Proof. destruct d; simpl; unfold dispatch, onIncrementPressEnd, onDecrementPressEnd,
         bind, gets; destruct (_async w); reflexivity. Qed.

Lemma filter_twice {A} (f : A -> bool) (l : list A) :
  filter f (filter f l) = filter f l.
Proof.
  induction l as [|a l IH]; simpl; [reflexivity|].
  destruct (f a) eqn:E; simpl; [rewrite E; now f_equal|exact IH].
Qed.

(** X8. A press-end is idempotent and silent: a second press-end (of
    either button) changes nothing more, no callback is called, and the
    handle slot keeps its value. *)
Theorem press_end_is_idempotent w d d' :
  step (step w (PressEnd d)) (PressEnd d') = step w (PressEnd d)
  /\ log (step w (PressEnd d)) = log w
  /\ _async (step w (PressEnd d)) = _async w.
Proof.
  rewrite (press_end_world d w). destruct (_async w) as [h|] eqn:A.
  - rewrite press_end_world.
    change (_async (remove_timer h w)) with (_async w). rewrite A.
    repeat split. unfold remove_timer. simpl. now rewrite filter_twice.
  - rewrite press_end_world, A. auto.
Qed.

(** X7. The press handlers call the step callback without testing it: a
    press on a button whose step callback the host did not supply raises
    a TypeError once, arms no timer and never repeats. *)
Theorem press_without_step_callback_never_repeats p d ms :
  step_present d p = false ->
  log (run (mount p) [PressStart d; Elapse ms]) = [Uncaught TypeError]
  /\ timers (run (mount p) [PressStart d; Elapse ms]) = [].
Proof.
  intros E. unfold run. cbn [fold_left].
  rewrite step_PressStart_absent by exact E. cbn [step].
  rewrite elapse_no_timers by reflexivity. split; reflexivity.
Qed.

(** X4. Keys, focus, blur, renders and unmount leave the clock, the timer
    queue and the handle slot exactly as they were: a render while a
    button is held neither cancels nor re-arms its repeat. *)
Theorem only_presses_and_time_touch_the_timers w :
  (forall e, timer_state (step w (KeyDown e)) = timer_state w)
  /\ (forall i, timer_state (step w (Focus i)) = timer_state w)
  /\ timer_state (step w Blur) = timer_state w
  /\ (forall q, timer_state (step w (Render q)) = timer_state w)
  /\ timer_state (step w Unmount) = timer_state w.
Proof.
  repeat split; intros.
  - exact (timer_state_quiet w (KeyDown e)).
  - exact (timer_state_quiet w (Focus i)).
  - exact (timer_state_quiet w Blur).
  - exact (timer_state_quiet w (Render q)).
Qed.

(** *** Announcements *)

Lemma quiet_refl w : quiet w w.
Proof. repeat split. Qed.

Lemma quiet_trans w1 w2 w3 : quiet w1 w2 -> quiet w2 w3 -> quiet w1 w3.
Proof.
  intros (A1 & A2 & A3) (B1 & B2 & B3). repeat split; congruence.
Qed.

Lemma announcements_logged l w :
  announcements (logged l w)
  = announcements w
    ++ filter (fun x => match x with Announce _ => true | _ => false end) l.
Proof. unfold announcements. simpl. apply filter_app. Qed.

Lemma quiet_logged l w :
  filter (fun x => match x with Announce _ => true | _ => false end) l = [] ->
  quiet w (logged l w).
Proof.
  intros E. repeat split. rewrite announcements_logged, E. apply app_nil_r.
Qed.

Lemma quiet_remove h w : quiet w (remove_timer h w).
Proof. repeat split. Qed.

Lemma quiet_armed d p delay w : quiet w (armed d p delay w).
Proof.
  repeat split. unfold announcements. simpl. rewrite filter_app. simpl.
  apply app_nil_r.
Qed.

Lemma quiet_fire t w : quiet w (fire t w).
Proof.
  destruct (fire_cases t w) as [->|[(_ & ->)|(_ & ->)]].
  - apply quiet_refl.
  - apply (quiet_trans _ (remove_timer (handle t) w)); [apply quiet_remove|apply quiet_armed].
  - apply (quiet_trans _ (remove_timer (handle t) w)); [apply quiet_remove|].
    now apply quiet_logged.
Qed.

Lemma quiet_elapse ms w : quiet w (elapse ms w).
Proof.
  apply (elapse_keeps (quiet w) (fun _ => True)).
  - intros w' Q. apply (quiet_trans _ w'); [exact Q|repeat split].
  - trivial.
  - intros t w' _ Q. apply (quiet_trans _ w'); [exact Q|apply quiet_fire].
  - apply quiet_refl.
Qed.

Lemma quiet_step w ev :
  match ev with
  | Focus _ | Blur | Render _ => True
  | _ => quiet w (step w ev)
  end.
Proof.
  destruct ev as [e|i| |q|d|d|ms|]; try exact I.
  - simpl. unfold dispatch.
    destruct (onKeyDown_cases (props w) e w)
      as [E|[(c & _ & E)|(_ & _ & E)]]; rewrite E.
    + apply quiet_refl.
    + now apply quiet_logged.
    + apply (quiet_trans _ (logged [PreventDefault] w)); now apply quiet_logged.
  - destruct (step_present d (props w)) eqn:E.
    + rewrite step_PressStart_present by exact E. apply quiet_armed.
    + rewrite step_PressStart_absent by exact E. now apply quiet_logged.
  - rewrite press_end_world. destruct (_async w); [apply quiet_remove|apply quiet_refl].
  - apply quiet_elapse.
  - apply quiet_refl.
Qed.

Lemma focus_step w i :
  isFocused (step w (Focus i)) = true /\ deps (step w (Focus i)) = deps w
  /\ announcements (step w (Focus i)) = announcements w.
Proof.
  destruct i; repeat split; unfold announcements; simpl;
    rewrite filter_app; simpl; apply app_nil_r.
Qed.

Lemma blur_step w :
  isFocused (step w Blur) = false /\ deps (step w Blur) = deps w
  /\ announcements (step w Blur) = announcements w.
Proof.
  simpl. unfold dispatch, onBlur, bind, call.
  destruct (onValidate (props w)); repeat split; unfold announcements; simpl;
    rewrite filter_app; simpl; apply app_nil_r.
Qed.

Lemma render_step w p :
  isFocused (step w (Render p)) = isFocused w
  /\ deps (step w (Render p)) = Some (textValue p, value p)
  /\ announcements (step w (Render p))
     = announcements w
       ++ (if deps_changed (deps w) (textValue p, value p) && isFocused w
           then [Announce (displayed (textValue p) (value p))]
           else []).
Proof.
  simpl. unfold dispatch, render, bind, gets, announce_effect.
  cbn -[deps_changed displayed].
  destruct (deps_changed (deps w) (textValue p, value p)).
  - cbn -[displayed]. destruct (isFocused w); cbn -[displayed].
    + repeat split. unfold announcements. cbn -[displayed].
      now rewrite filter_app.
    + repeat split. now rewrite app_nil_r.
  - cbn. repeat split. now rewrite app_nil_r.
Qed.


(** The focus flag follows the focus and blur events of a trace, and the
    remembered dependencies are those of its last render. *)
Lemma flag_and_deps_after tr :
  forall w r,
    deps w = Some (textValue r, value r) ->
    isFocused (run w tr) = focused_after (isFocused w) tr
    /\ deps (run w tr)
       = Some (textValue (rendered_after r tr), value (rendered_after r tr)).
Proof.
  induction tr as [|ev tr IH]; intros w r D; [now split|].
  unfold run. cbn [fold_left]. fold (run (step w ev) tr).
  pose proof (quiet_step w ev) as Q.
  destruct ev as [e|i| |q|d|d|ms|]; cbn [focused_after rendered_after];
    try (destruct Q as (Q1 & Q2 & _); rewrite <- Q1; apply IH; now rewrite Q2).
  - destruct (focus_step w i) as (F1 & F2 & _). rewrite <- F1.
    apply IH. now rewrite F2.
  - destruct (blur_step w) as (F1 & F2 & _). rewrite <- F1.
    apply IH. now rewrite F2.
  - destruct (render_step w q) as (F1 & F2 & _). rewrite <- F1.
    apply IH. exact F2.
Qed.

(** C7. The control has focus when the last focus or blur event was a
    focus.  The displayed value of a render is its [textValue] when the
    host gives one that is not empty, and its stringified [value]
    otherwise.  After any sequence of events from the mount: a render
    whose displayed value differs from that of the previous render
    announces the new displayed value exactly once when the control has
    focus; a render announces nothing, whatever changed, when the control
    has no focus; a render with the same [textValue] and [value]
    announces nothing; and neither a focus nor a blur announces
    anything, nor does any other event that is not a render. *)
Theorem announces_once_per_focused_change q tr p :
  let shown := fun r : SpinButtonProps V =>
    match textValue r with
    | Some s => if (s =? EmptyString)%string then ToString (value r) else s
    | None => ToString (value r)
    end in
  (focused_after false tr = true ->
   shown (rendered_after q tr) <> shown p ->
   log (step (run (mount q) tr) (Render p))
   = log (run (mount q) tr) ++ [Announce (shown p)])
  /\ (focused_after false tr = false ->
      log (step (run (mount q) tr) (Render p)) = log (run (mount q) tr))
  /\ (same_text (textValue (rendered_after q tr)) (textValue p) = true ->
      Object_is (value (rendered_after q tr)) (value p) = true ->
      log (step (run (mount q) tr) (Render p)) = log (run (mount q) tr))
  /\ (forall i,
        announcements (step (run (mount q) tr) (Focus i))
        = announcements (run (mount q) tr))
  /\ announcements (step (run (mount q) tr) Blur)
     = announcements (run (mount q) tr)
  /\ (forall ev,
        match ev with
        | Render _ => True
        | _ => announcements (step (run (mount q) tr) ev)
               = announcements (run (mount q) tr)
        end).
Proof.
  intros shown.
  destruct (flag_and_deps_after tr (mount q) q eq_refl) as (Fl & Dp).
  change (isFocused (mount q)) with false in Fl.
  set (w := run (mount q) tr) in *. set (r := rendered_after q tr) in *.
  repeat split.
  - intros Foc Ch.
    assert (E : deps_changed (deps w) (textValue p, value p) = true).
    { rewrite Dp. cbn [deps_changed fst snd].
      apply negb_true_iff, not_true_is_false. intros X.
      apply andb_prop in X. destruct X as [Xt Xv]. apply Ch.
      exact (displayed_same _ _ _ _ Xt Xv). }
    rewrite (render_changed p w E), Fl, Foc. reflexivity.
  - intros Foc.
    destruct (deps_changed (deps w) (textValue p, value p)) eqn:E.
    + now rewrite (render_changed p w E), Fl, Foc.
    + exact (render_unchanged p w E).
  - intros Et Ev. apply render_unchanged. rewrite Dp.
    cbn [deps_changed fst snd]. now rewrite Et, Ev.
  - intros i. exact (proj2 (proj2 (focus_step w i))).
  - exact (proj2 (proj2 (blur_step w))).
  - intros ev. pose proof (quiet_step w ev) as Q.
    destruct ev as [e|i| |p'|d|d|ms|]; try exact I; try exact (proj2 (proj2 Q)).
    + exact (proj2 (proj2 (focus_step w i))).
    + exact (proj2 (proj2 (blur_step w))).
Qed.

End More.

Section Attributes.
Context {V : Type} `{JSValue V}.

(** X11. The text a focused change announces is the [aria-valuetext] of
    the returned attributes when there is one and the stringified value
    otherwise; [aria-valuetext] is never the empty string, and the three
    flag attributes are [true] or absent, never [false]. *)
Theorem announced_text_agrees_with_aria_valuetext
    (isNumber : V -> bool) (p : SpinButtonProps V) :
  displayed (textValue p) (value p)
  = match aria_valuetext (spinButtonProps isNumber p) with
    | Some s => s
    | None => ToString (value p)
    end
  /\ aria_valuetext (spinButtonProps isNumber p) <> Some EmptyString
  /\ aria_disabled (spinButtonProps isNumber p) <> Some false
  /\ aria_readonly (spinButtonProps isNumber p) <> Some false
  /\ aria_required (spinButtonProps isNumber p) <> Some false.
Proof.
  unfold displayed, spinButtonProps, or_null. simpl. repeat split.
  - destruct (textValue p) as [s|]; [|reflexivity].
    now destruct (s =? EmptyString)%string.
  - destruct (textValue p) as [s|]; [|discriminate].
    destruct (s =? EmptyString)%string eqn:E; [discriminate|].
    intros X. injection X as ->. discriminate.
  - now destruct (isDisabled p).
  - now destruct (isReadOnly p).
  - now destruct (isRequired p).
Qed.
End Attributes.

(** ArrowUp with the control key held. *)
Lemma ignored_keys_witness :
  step (mount full) (KeyDown (ctrl_key "ArrowUp")) = mount full.
Proof.
  apply (ignored_keys_change_nothing (mount full) (ctrl_key "ArrowUp")).
  left. reflexivity.
Defined.

(** Home with no minimum defined. *)
Lemma arrows_home_and_end_witness :
  onKeyDown steps_only (plain_key "Home") (mount steps_only)
  = (Returned tt, mount steps_only).
Proof.
  apply (proj1 (proj2 (proj2 (arrows_home_and_end
                                steps_only (plain_key "Home") (mount steps_only)
                                eq_refl eq_refl)))).
  reflexivity.
Defined.

(** Decrement held for 400 + 2 * 75 + 10 ms: four calls. *)
Lemma repeat_cadence_witness :
  log (run (mount steps_only) [PressStart Decrement; Elapse (400 + 2 * 75 + 10)])
  = log (mount steps_only)
    ++ [Call OnDecrement; Call OnDecrement; Call OnDecrement; Call OnDecrement].
Proof.
  apply (proj2 (repeat_cadence Decrement (mount steps_only) eq_refl eq_refl) 2 10).
  simpl. lia.
Defined.

(** Increment held while the host re-renders without any callback. *)
Lemma render_during_repeat_witness :
  log (run (mount steps_only)
         [PressStart Increment; Render bare; Elapse (400 + 3 * 60 + 0)])
  = log (run (mount steps_only) [PressStart Increment; Render bare])
    ++ [Call OnIncrement; Call OnIncrement; Call OnIncrement; Call OnIncrement].
Proof.
  apply (render_does_not_change_a_running_repeat
           Increment (mount steps_only) bare eq_refl eq_refl 3 0).
  simpl. lia.
Defined.

(** Increment pressed on a host without callbacks. *)
Lemma press_without_step_callback_witness :
  log (run (mount bare) [PressStart Increment; Elapse 1000]) = [Uncaught TypeError]
  /\ timers (run (mount bare) [PressStart Increment; Elapse 1000]) = [].
Proof.
  apply (press_without_step_callback_never_repeats bare Increment 1000).
  reflexivity.
Defined.

(** Decrement pressed and released while increment is held. *)
Lemma earlier_timers_witness :
  timers (run (run (mount steps_only) [PressStart Increment])
              [PressStart Decrement; PressEnd Decrement])
  = timers (run (mount steps_only) [PressStart Increment]).
Proof.
  apply (earlier_timers_survive_a_press steps_only [PressStart Increment]
           Decrement Decrement).
  reflexivity.
Defined.

(** A focused control whose value goes from 5 to 6: one announcement of
    the text 6, or of the override text "six" when the host gives it; and
    after a blur the same render announces nothing. *)
Lemma announces_witness :
  log (step (run (mount full) [Focus true; KeyDown (plain_key "ArrowUp")])
            (Render six))
  = log (run (mount full) [Focus true; KeyDown (plain_key "ArrowUp")])
    ++ [Announce "6"]
  /\ log (step (run (mount full) [Focus true; KeyDown (plain_key "ArrowUp")])
               (Render six_as_text))
     = log (run (mount full) [Focus true; KeyDown (plain_key "ArrowUp")])
       ++ [Announce "six"]
  /\ log (step (run (mount full) [Focus true; Blur]) (Render six_as_text))
     = log (run (mount full) [Focus true; Blur]).
Proof.
  split; [|split].
  - refine (proj1 (announces_once_per_focused_change
                     full [Focus true; KeyDown (plain_key "ArrowUp")] six)
                  _ _).
    + reflexivity.
    + vm_compute. discriminate.
  - apply (proj1 (announces_once_per_focused_change
                    full [Focus true; KeyDown (plain_key "ArrowUp")]
                    six_as_text)).
    + reflexivity.
    + vm_compute. discriminate.
  - apply (proj1 (proj2 (announces_once_per_focused_change
                           full [Focus true; Blur] six_as_text))).
    reflexivity.
Defined.

(** C1. The two buttons share the one handle slot.  With increment
    pressed and then decrement pressed, the release of increment clears
    the timer of the decrement button and leaves its own.  The decrement
    button, still held, never repeats, while the increment callback is
    called again 400 ms after its press and then every 60 ms; this goes on
    after the decrement button is released too, with no button held,
    without end.  A new press of increment puts a second increment timer
    next to the first. *)
Theorem release_clears_the_other_buttons_timer (k : nat) :
  map (@spin Z)
      (timers (run (mount steps_only)
                 [PressStart Increment; PressStart Decrement;
                  PressEnd Increment]))
  = [Increment]
  /\ log (run (mount steps_only)
            [PressStart Increment; PressStart Decrement; PressEnd Increment;
             Elapse (400 + k * 60)])
     = [Call OnIncrement; Call OnDecrement] ++ repeat (Call OnIncrement) (k + 1)
  /\ log (run (mount steps_only)
            [PressStart Increment; PressStart Decrement; PressEnd Increment;
             PressEnd Decrement; Elapse (400 + k * 60)])
     = [Call OnIncrement; Call OnDecrement] ++ repeat (Call OnIncrement) (k + 1)
  /\ List.length
       (live Increment
          (run (mount steps_only)
             [PressStart Increment; PressStart Decrement; PressEnd Increment;
              PressStart Increment]))
     = 2.
Proof.
  assert (Snoc : forall (w0 : world Z) tr ev,
             run w0 (tr ++ [ev]) = step (run w0 tr) ev).
  { intros w0 tr ev. unfold run. now rewrite fold_left_app. }
  change [PressStart Increment; PressStart Decrement; PressEnd Increment;
          Elapse (400 + k * 60)]
    with ([PressStart Increment; PressStart Decrement; PressEnd Increment]
          ++ [@Elapse Z (400 + k * 60)]).
  change [PressStart Increment; PressStart Decrement; PressEnd Increment;
          PressEnd Decrement; Elapse (400 + k * 60)]
    with ([PressStart Increment; PressStart Decrement; PressEnd Increment;
           PressEnd Decrement] ++ [@Elapse Z (400 + k * 60)]).
  rewrite !Snoc.
  assert (Ew : run (mount steps_only)
                 [PressStart Increment; PressStart Decrement;
                  PressEnd Increment; PressEnd Decrement]
               = run (mount steps_only)
                   [PressStart Increment; PressStart Decrement;
                    PressEnd Increment])
    by (vm_compute; reflexivity).
  rewrite Ew.
  set (w := run (mount steps_only)
              [PressStart Increment; PressStart Decrement; PressEnd Increment]).
  assert (Hw : holding Increment steps_only (now w + S 399) w).
  { eexists. vm_compute. repeat split. }
  assert (Lw : log w = [Call OnIncrement; Call OnDecrement])
    by (vm_compute; reflexivity).
  assert (C : log (step w (Elapse (400 + k * 60)))
              = [Call OnIncrement; Call OnDecrement]
                ++ repeat (Call OnIncrement) (k + 1)).
  { rewrite <- Lw. cbn [step].
    replace (400 + k * 60) with (S 399 + k * repeat_interval Increment + 0)
      by (simpl; lia).
    apply (held_cadence Increment steps_only 399 k 0 w eq_refl Hw).
    simpl. lia. }
  split; [vm_compute; reflexivity|].
  split; [exact C|]. split; [exact C|].
  vm_compute. reflexivity.
Qed.

End SpinButtonMore.

(** * Further properties of useNumberParser *)

Module NumberParserMore.
Import NumberParser NumberParserFacts.

Lemma trimStart_app_blank (a s : jsstring) :
  blank a = true -> trimStart (a ++ s) = trimStart s.
Proof.
  unfold blank. induction a as [|c a IH]; simpl; [reflexivity|].
  intros E. apply andb_prop in E. destruct E as [Ec Ea]. rewrite Ec. now apply IH.
Qed.

Lemma blank_rev (b : jsstring) : blank b = true -> blank (rev b) = true.
Proof.
  unfold blank. rewrite !forallb_forall. intros F x Hx. apply F.
  now apply in_rev.
Qed.

Lemma trimEnd_app_blank (s b : jsstring) :
  blank b = true -> trimEnd (s ++ b) = trimEnd s.
Proof.
  intros E. unfold trimEnd. rewrite rev_app_distr.
  now rewrite trimStart_app_blank by now apply blank_rev.
Qed.

Lemma trimStart_app_keep (s b : jsstring) :
  blank s = false -> trimStart (s ++ b) = trimStart s ++ b.
Proof.
  unfold blank. induction s as [|c s IH]; simpl; [discriminate|].
  destruct (isWhiteSpace c); simpl; [exact IH|reflexivity].
Qed.

Lemma trim_padding (a s b : jsstring) :
  blank a = true -> blank b = true -> trim (a ++ s ++ b) = trim s.
Proof.
  intros Ea Eb. unfold trim. rewrite trimStart_app_blank by exact Ea.
  destruct (blank s) eqn:Es.
  - rewrite (trimStart_blank (s ++ b)).
    + now rewrite (trimStart_blank s).
    + unfold blank in *. now rewrite forallb_app, Es, Eb.
  - rewrite trimStart_app_keep by exact Es. now apply trimEnd_app_blank.
Qed.

(** X12. White space around the input never matters, whatever the
    descriptor holds. *)
Theorem parse_ignores_padding (d : NumberData) (a s b : jsstring) :
  blank a = true -> blank b = true -> parse d (a ++ s ++ b) = parse d s.
Proof.
  intros Ea Eb. unfold parse, clean. now rewrite trim_padding.
Qed.

Lemma find_value_missing (t : string) (parts : list part) (s : state) :
  (forall d, In d parts -> type d <> t) ->
  find_value t parts s = (Threw TypeError, s).
Proof.
  induction parts as [|d r IH]; intros F; simpl; [reflexivity|].
  assert (E : (type d =? t)%string = false)
    by (apply String.eqb_neq, F; now left).
  rewrite E. apply IH. intros d' Hd'. apply F. now right.
Qed.

Lemma find_value_state (t : string) (parts : list part) (s : state) :
  snd (find_value t parts s) = s.
Proof.
  induction parts as [|d r IH]; simpl; [reflexivity|].
  now destruct (type d =? t)%string.
Qed.

(** X13. When the platform's parts of 12345.6 have no group part the
    effect raises a TypeError before it writes anything; when they have no
    decimal part it raises after at most the group pattern was written,
    and the decimal pattern, the numeral pattern and the index stay as
    they were. *)
Theorem effect_fails_without_separator_parts (intl : Intl) (loc : string) (s : state) :
  ((forall d, In d (formatToParts_12345_6 (intl loc)) -> type d <> "group"%string) ->
   derive intl loc s = (Threw TypeError, s))
  /\ ((forall d, In d (formatToParts_12345_6 (intl loc)) -> type d <> "decimal"%string) ->
      (exists e, fst (derive intl loc s) = Threw e)
      /\ decimal (numberData (snd (derive intl loc s))) = decimal (numberData s)
      /\ numeral (numberData (snd (derive intl loc s))) = numeral (numberData s)
      /\ index (numberData (snd (derive intl loc s))) = index (numberData s)).
Proof.
  split; intros F.
  - unfold derive, bind. now rewrite find_value_missing.
  - unfold derive, bind.
    destruct (find_value "group" (formatToParts_12345_6 (intl loc)) s)
      as [[g|e] s1] eqn:Eg.
    2:{ pose proof (find_value_state "group" (formatToParts_12345_6 (intl loc)) s) as X.
        rewrite Eg in X. simpl in X. subst s1. simpl. eauto 6. }
    pose proof (find_value_state "group" (formatToParts_12345_6 (intl loc)) s) as X.
    rewrite Eg in X. simpl in X. subst s1.
    unfold new_RegExp. destruct (plain_class g).
    + cbn -[find_value]. rewrite find_value_missing by exact F. simpl. eauto 6.
    + simpl. eauto 6.
Qed.

Lemma replace_substring_absent (r : replacement) (s : jsstring) :
  ~ In 110%N s -> replace_substring (units "null") r s = s.
Proof.
  induction s as [|c s IH]; intros N; [reflexivity|].
  assert (E : (110 =? c)%N = false).
  { apply N.eqb_neq. intros X. subst c. apply N. now left. }
  change (units "null") with [110; 117; 108; 108]%N.
  cbn [replace_substring starts_with]. rewrite E. f_equal.
  change [110; 117; 108; 108]%N with (units "null"). apply IH.
  intros X. apply N. now right.
Qed.

Lemma trimStart_In (s : jsstring) (x : N) : In x (trimStart s) -> In x s.
Proof.
  induction s as [|c s IH]; simpl; [tauto|].
  destruct (isWhiteSpace c); simpl; [auto|tauto].
Qed.

Lemma trim_In (s : jsstring) (x : N) : In x (trim s) -> In x s.
Proof.
  unfold trim, trimEnd. intros X. apply in_rev in X. apply trimStart_In in X.
  apply in_rev in X. now apply trimStart_In.
Qed.

(** X14. Before the effect has run every field of the descriptor is null
    and [replace] looks for the text null: on an input without the letter
    n, [parse] is the plain numeric coercion of the trimmed input, NaN
    when that is empty. *)
Theorem parse_before_the_effect (s : jsstring) :
  ~ In 110%N s ->
  parse (numberData initial) s
  = match trim s with
    | [] => NaN
    | t => ToNumber t
    end.
Proof.
  intros N.
  assert (Nt : ~ In 110%N (trim s)) by (intros X; apply N; now apply trim_In).
  unfold parse, clean. cbn [initial numberData group decimal numeral index replace].
  rewrite (replace_substring_absent (RString []) (trim s) Nt).
  rewrite (replace_substring_absent (RString (units ".")) (trim s) Nt).
  now rewrite (replace_substring_absent RNull (trim s) Nt).
Qed.

(** X15. Whatever the platform data and the locales of the later renders,
    [parse] gives what it gave after the mount. *)
Theorem parse_keeps_the_mount_locale (intl : Intl) (loc : string)
    (later : list string) (s : jsstring) :
  parse (numberData (renders intl (loc :: later))) s
  = parse (numberData (renders intl [loc])) s.
Proof.
  f_equal. unfold renders. cbn [fold_left].
  assert (E := effect_deps_render intl loc initial).
  revert E. generalize (commit (render intl loc) initial) as st.
  induction later as [|l later IH]; intros st E; [reflexivity|].
  cbn [fold_left]. rewrite render_after_mount by exact E.
  now rewrite IH.
Qed.

(** X16. The cleaned string is tested for emptiness only: an input that
    the cleaning steps turn into white space that is not empty parses to
    zero, not to NaN. *)
Theorem white_space_left_by_cleaning_parses_to_zero (d : NumberData) (s : jsstring) :
  clean d s <> [] -> blank (clean d s) = true -> parse d s = Finite false 0 0.
Proof.
  intros Ne B. unfold parse. destruct (clean d s) as [|c r] eqn:E; [congruence|].
  unfold ToNumber. now rewrite trim_blank.
Qed.

Lemma replace_miss (re : RegExp) (r : replacement) (s : jsstring) :
  (forall c, In c s -> matches re c = false) ->
  replace_all re r s = s /\ replace_first re r s = s.
Proof.
  induction s as [|c s IH]; intros F; simpl; [now split|].
  rewrite (F c (or_introl eq_refl)).
  destruct IH as [I1 I2]; [intros x Hx; apply F; now right|].
  now rewrite I1, I2.
Qed.

Lemma matches_miss (cls : jsstring) (g : bool) (c : N) :
  ~ In c cls -> matches {| class := cls; global := g |} c = false.
Proof.
  intros N. unfold matches. cbn [class].
  destruct (existsb (fun m => (m =? c)%N) cls) eqn:E; [|reflexivity].
  apply existsb_exists in E. destruct E as (m & Hm & E).
  apply N.eqb_eq in E. subst. contradiction.
Qed.

Lemma digit_unit_literal d : d < 10 -> literal_unit (digit_unit d) = true.
Proof. intros Hd. do 10 (destruct d as [|d]; [reflexivity|]). exfalso. lia. Qed.

(** X17. ASCII literals are understood in every script: for a locale whose
    glyphs are single code units none of which is an ASCII digit, point or
    hyphen-minus, an ASCII decimal literal parses to the Number it
    denotes, that is the double nearest to the decimal; an integer literal
    within the safe range parses to that integer. *)
Theorem ascii_literals_parse_in_any_script (L : glyphs) (loc : string)
    (negative : bool) (ip fp : list nat) :
  well_formed L = true -> ascii_free L = true ->
  ip <> [] -> decimal_digits ip = true -> decimal_digits fp = true ->
  parse (numberData (renders (fun _ => NumberFormat_of L) [loc]))
        ((if negative then [45%N] else []) ++
         ascii_digits ip ++
         match fp with
         | [] => []
         | _ => 46%N :: ascii_digits fp
         end)
  = Number_value negative (to_N 10 (map N.of_nat (ip ++ fp)))
                 (- Z.of_nat (List.length fp))
  /\ (fp = [] ->
      (to_N 10 (map N.of_nat ip) <= MAX_SAFE_INTEGER)%N ->
      parse (numberData (renders (fun _ => NumberFormat_of L) [loc]))
            ((if negative then [45%N] else []) ++ ascii_digits ip)
      = Finite negative (to_N 10 (map N.of_nat ip)) 0).
Proof.
  intros WF AF Hne Ei Ef.
  assert (P : parse (numberData (renders (fun _ => NumberFormat_of L) [loc]))
                ((if negative then [45%N] else []) ++
                 ascii_digits ip ++
                 match fp with
                 | [] => []
                 | _ => 46%N :: ascii_digits fp
                 end)
              = Number_value negative (to_N 10 (map N.of_nat (ip ++ fp)))
                             (- Z.of_nat (List.length fp)));
    [|split; [exact P|];
      intros -> Safe; rewrite !app_nil_r in P; rewrite P;
      now apply Number_value_integer].
  rewrite derive_well_formed by exact WF.
  set (t := (if negative then [45%N] else []) ++ _).
  assert (Lit : forall c, In c t -> literal_unit c = true).
  { intros c Hc. unfold t in Hc. apply in_app_or in Hc. destruct Hc as [Hc|Hc].
    - destruct negative; [|destruct Hc]. destruct Hc as [<-|[]]. reflexivity.
    - apply in_app_or in Hc. destruct Hc as [Hc|Hc].
      + apply in_map_iff in Hc. destruct Hc as (d & <- & Hd).
        apply digit_unit_literal. now apply (decimal_digits_In ip).
      + destruct fp as [|f0 fr]; [destruct Hc|]. destruct Hc as [<-|Hc]; [reflexivity|].
        apply in_map_iff in Hc. destruct Hc as (d & <- & Hd).
        apply digit_unit_literal. now apply (decimal_digits_In (f0 :: fr)). }
  assert (Free : forall c, In c t ->
                   ~ In c (group_glyph L :: decimal_glyph L :: zero_to_nine L)).
  { intros c Hc X. unfold ascii_free in AF. rewrite forallb_forall in AF.
    specialize (AF c X). rewrite (Lit c Hc) in AF. discriminate. }
  assert (Ws : forallb (fun c => negb (isWhiteSpace c)) t = true).
  { apply forallb_forall. intros c Hc. specialize (Lit c Hc).
    apply negb_true_iff. unfold literal_unit in Lit.
    destruct (isWhiteSpace c) eqn:W; [|reflexivity]. exfalso.
    unfold isWhiteSpace in W.
    repeat (apply orb_prop in Lit; destruct Lit as [Lit|Lit]);
      repeat (apply orb_prop in W; destruct W as [W|W]);
      repeat match goal with
             | X : (_ && _)%bool = true |- _ => apply andb_prop in X; destruct X
             | X : (_ <=? _)%N = true |- _ => apply N.leb_le in X
             | X : (_ =? _)%N = true |- _ => apply N.eqb_eq in X
             end; lia. }
  assert (Miss : forall cls g c,
             In c t ->
             (forall x, In x cls ->
                In x (group_glyph L :: decimal_glyph L :: zero_to_nine L)) ->
             matches {| class := cls; global := g |} c = false).
  { intros cls g c Hc Sub. apply matches_miss. intros X.
    exact (Free c Hc (Sub c X)). }
  assert (Mg : forall c, In c t ->
             matches {| class := [group_glyph L]; global := true |} c = false).
  { intros c Hc. apply (Miss _ _ c Hc). intros x [<-|[]]. now left. }
  assert (Md : forall c, In c t ->
             matches {| class := [decimal_glyph L]; global := false |} c = false).
  { intros c Hc. apply (Miss _ _ c Hc). intros x [<-|[]]. right. now left. }
  assert (Mn : forall c, In c t ->
             matches {| class := zero_to_nine L; global := true |} c = false).
  { intros c Hc. apply (Miss _ _ c Hc). intros x Hx. right. now right. }
  assert (C : clean (descriptor_of L) t = t).
  { unfold clean. rewrite trim_no_white_space by exact Ws.
    cbn [descriptor_of group decimal numeral index replace global].
    rewrite (proj1 (replace_miss _ (RString []) t Mg)).
    rewrite (proj2 (replace_miss _ (RString (units ".")) t Md)).
    apply (proj1 (replace_miss _ _ t Mn)). }
  unfold parse. rewrite C.
  rewrite <- (ToNumber_decimal negative ip fp Hne Ei Ef). fold t.
  destruct t as [|c r] eqn:Et; [|reflexivity].
  exfalso. unfold t in Et. destruct negative; [discriminate|].
  destruct ip; [congruence|discriminate].
Qed.

(** Digits between a tab and two spaces, under de-DE. *)
Lemma parse_ignores_padding_witness :
  parse (numberData (renders sample_intl ["de-DE"]%string))
        ([9%N] ++ units "1.234,5" ++ units "  ")
  = parse (numberData (renders sample_intl ["de-DE"]%string)) (units "1.234,5").
Proof.
  apply (parse_ignores_padding
           (numberData (renders sample_intl ["de-DE"]%string))
           [9%N] (units "1.234,5") (units "  ")); reflexivity.
Defined.

(** A platform that formats 12345.6 without grouping. *)
Lemma effect_fails_witness :
  derive (fun _ => ungrouped) "xx" initial = (Threw TypeError, initial).
Proof.
  apply (proj1 (effect_fails_without_separator_parts
                  (fun _ => ungrouped) "xx" initial)).
  intros d Hd. simpl in Hd.
  destruct Hd as [<-|[<-|[<-|[]]]]; simpl; discriminate.
Defined.

(** The input 12.5 before the effect has run. *)
Lemma parse_before_the_effect_witness :
  parse (numberData initial) (units " 12.5")
  = match trim (units " 12.5") with
    | [] => NaN
    | t => ToNumber t
    end.
Proof.
  apply (parse_before_the_effect (units " 12.5")).
  simpl. intros X. repeat (destruct X as [X|X]; [discriminate X|]). exact X.
Defined.

(** A comma, a space and a comma under en-US. *)
Lemma white_space_witness :
  parse (numberData (renders sample_intl ["en-US"]%string)) (units ", ,")
  = Finite false 0 0.
Proof.
  apply (white_space_left_by_cleaning_parses_to_zero
           (numberData (renders sample_intl ["en-US"]%string)) (units ", ,")).
  - vm_compute. discriminate.
  - reflexivity.
Defined.

(** The ASCII literal -12.5 under the Arabic-Indic sample. *)
Lemma ascii_literals_witness :
  parse (numberData (renders (fun _ => NumberFormat_of arabic) ["ar-EG"]%string))
        (units "-12.5")
  = Finite true 125 (-1).
Proof.
  refine (eq_trans
            (proj1 (ascii_literals_parse_in_any_script arabic "ar-EG" true
                      [1; 2] [5] _ _ _ _ _)) _).
  - reflexivity.
  - reflexivity.
  - discriminate.
  - reflexivity.
  - reflexivity.
  - vm_compute. reflexivity.
Defined.

End NumberParserMore.
